(** * repo-sql-testing: issue parser and record store

    A shallow embedding of [issue-parser.js] (text extraction, record
    normalisation, validation, operation classification) and of [db.js]
    (the [users] table behind [createRecord], [updateRecord], [getRecord],
    [getRecordByUsername] and [getAllRecords]) and of [process-issue.js]
    (the run of [processIssue] over one issue), followed by the properties
    stated about them.

    Modelling conventions.
    - A JavaScript string is a [string]: a sequence of 8-bit code units read
      as the Latin-1 range of UTF-16.  Code units above 255 are outside the
      model.
    - A JavaScript number that holds a record identifier is [NaN] or an
      integer [Num z] with [z : Z]; the rounding of doubles beyond 2^53 is
      outside the model.
    - A thrown [Error] is a value of type [error]; a function that may throw
      returns a [result].
    - The SQLite file is a finite map from the primary key [id] to the other
      columns of the row, with the [sqlite_sequence] counter that
      AUTOINCREMENT keeps; [datetime('now')] is the clock reading handed to
      the statement.  Row ids are unbounded integers: the 64-bit limit of
      SQLite is outside the model.
    - The object [data] of the parser is a finite map from keys to strings.
      None of the keys the normaliser reads is a property of
      [Object.prototype], so a lookup of an absent key is [undefined].  The
      map holds the own properties of the object; an assignment to the key
      [__proto__], which JavaScript does not store as one, is outside the
      model. *)

From Stdlib Require Import ZArith Ascii String Bool List Lia.
From stdpp Require Import base option gmap strings list fin_maps sorting.

Local Open Scope string_scope.
Local Open Scope Z_scope.

(** ** JavaScript strings *)

Module Js.

Definition code (c : ascii) : N := N_of_ascii c.

Definition between (lo hi : N) (c : ascii) : bool :=
  ((lo <=? code c) && (code c <=? hi))%N.

(** WhiteSpace and LineTerminator code units below 256: TAB, LF, VT, FF, CR,
    SPACE and NO-BREAK SPACE.  This is the set of [String.prototype.trim],
    of the regular expression class [\s] and of [parseInt]. *)
Definition is_space (c : ascii) : bool :=
  between 9 13 c || (code c =? 32)%N || (code c =? 160)%N.

Definition is_digit (c : ascii) : bool := between 48 57 c.

(** The class [\w]: [A-Za-z0-9_]. *)
Definition is_word (c : ascii) : bool :=
  between 65 90 c || between 97 122 c || is_digit c || (code c =? 95)%N.

(** [.] without the [s] flag: anything but a line terminator. *)
Definition is_dot (c : ascii) : bool :=
  negb ((code c =? 10)%N || (code c =? 13)%N).

(** [[^\n]] *)
Definition not_newline (c : ascii) : bool := negb (code c =? 10)%N.

(** [[\s\S]] *)
Definition any_char (c : ascii) : bool := true.

(** [String.prototype.toLowerCase] on one code unit of the Latin-1 range:
    [A-Z], [À-Ö] and [Ø-Þ] move 32 up. *)
Definition lower (c : ascii) : ascii :=
  if between 65 90 c || between 192 214 c || between 216 222 c
  then ascii_of_N (code c + 32)
  else c.

Fixpoint toLowerCase (s : string) : string :=
  match s with
  | EmptyString => EmptyString
  | String c s' => String (lower c) (toLowerCase s')
  end.

(** Canonicalize of a case-insensitive regular expression without the [u]
    flag, as far as it can relate a code unit to an ASCII pattern character:
    only [a-z] fold onto [A-Z]; a code unit of 128 or more never folds onto
    an ASCII one. *)
Definition canonicalize (c : ascii) : ascii :=
  if between 97 122 c then ascii_of_N (code c - 32) else c.

Fixpoint all (p : ascii -> bool) (s : string) : bool :=
  match s with
  | EmptyString => true
  | String c s' => p c && all p s'
  end.

Fixpoint dropWhile (p : ascii -> bool) (s : string) : string :=
  match s with
  | EmptyString => EmptyString
  | String c s' => if p c then dropWhile p s' else s
  end.

(** [trimEnd]: a character is kept when it is not white space or when
    something is left after it. *)
Fixpoint trimEnd (s : string) : string :=
  match s with
  | EmptyString => EmptyString
  | String c s' =>
      match trimEnd s' with
      | EmptyString => if is_space c then EmptyString else String c EmptyString
      | t => String c t
      end
  end.

Definition trimStart (s : string) : string := dropWhile is_space s.

(** [String.prototype.trim] *)
Definition trim (s : string) : string := trimEnd (trimStart s).

(** [s.startsWith(p)] *)
Fixpoint startsWith (s p : string) : bool :=
  match p, s with
  | EmptyString, _ => true
  | String a p', String b s' => Ascii.eqb a b && startsWith s' p'
  | String _ _, EmptyString => false
  end.

(** [s.includes(p)] *)
Fixpoint includes (s p : string) : bool :=
  startsWith s p ||
  match s with
  | EmptyString => false
  | String _ s' => includes s' p
  end.

(** [s.endsWith(p)] *)
Definition endsWith (s p : string) : bool :=
  (String.length p <=? String.length s)%nat &&
  String.eqb (substring (String.length s - String.length p) (String.length p) s) p.

(** [s.slice(1, -1)] *)
Definition slice_1_m1 (s : string) : string :=
  substring 1 (String.length s - 2) s.

(** [s.split('\n')] *)
Fixpoint split_lines (s : string) : list string :=
  match s with
  | EmptyString => [EmptyString]
  | String c s' =>
      if (code c =? 10)%N then EmptyString :: split_lines s'
      else match split_lines s' with
           | l :: ls => String c l :: ls
           | [] => [String c EmptyString]
           end
  end.

(** Truthiness of a string value: the empty string is falsy. *)
Definition truthy (s : string) : bool := negb (String.eqb s "").

(** *** Numbers and [parseInt] *)

Inductive number : Type :=
  | NaN
  | Num (z : Z).

Definition isNaN (n : number) : bool :=
  match n with NaN => true | Num _ => false end.

(** Truthiness of a number: [NaN] and [0] are falsy. *)
Definition truthy_number (n : number) : bool :=
  match n with NaN => false | Num z => negb (z =? 0) end.

Definition digit_value (c : ascii) : Z := Z.of_N (code c) - 48.

(** The longest prefix of decimal digits, read left to right; [None] when
    there is no digit at all. *)
Fixpoint digits (acc : option Z) (s : string) : option Z :=
  match s with
  | String c s' =>
      if is_digit c
      then digits (Some (10 * default 0 acc + digit_value c)) s'
      else acc
  | EmptyString => acc
  end.

Definition number_of_digits (d : option Z) (sign : Z) : number :=
  match d with
  | Some z => Num (sign * z)
  | None => NaN
  end.

(** [parseInt(s, 10)]: leading white space is skipped, one sign is read,
    then the longest run of digits; no digit gives [NaN]. *)
Definition parseInt10 (s : string) : number :=
  match trimStart s with
  | String c r =>
      if Ascii.eqb c "-" then number_of_digits (digits None r) (-1)
      else if Ascii.eqb c "+" then number_of_digits (digits None r) 1
      else number_of_digits (digits None (String c r)) 1
  | EmptyString => NaN
  end.

End Js.

Import Js.

(** The line feed, and a text given line by line. *)
Definition LF : ascii := "010"%char.
Definition nl : string := String LF "".
Definition text (ls : list string) : string := String.concat nl ls.

(** The double and the single quotation mark, as one-character strings. *)
Definition dquote : string := String "034"%char "".
Definition squote : string := "'".

(** ** Regular expressions

    The fragment of JavaScript regular expressions that [issue-parser.js]
    uses, with the backtracking order of the language: a greedy quantifier
    tries the longest repetition first, a lazy one the shortest.  Every
    quantified atom of the source is a single-character class. *)

Module Regex.

Inductive greed : Type := Greedy | Lazy.

Inductive regex : Type :=
  | Eps                                     (* the empty pattern *)
  | Bol                                     (* ^ *)
  | Eol                                     (* $ *)
  | Chr (c : ascii)                         (* a pattern character *)
  | Cls (p : ascii -> bool)                 (* one character of a class *)
  | Star (g : greed) (p : ascii -> bool)    (* p* and p*? *)
  | Opt (r : regex)                         (* r? *)
  | Grp (r : regex)                         (* ( r ) *)
  | Cat (r1 r2 : regex).

(** [p+] *)
Definition Plus (p : ascii -> bool) : regex := Cat (Cls p) (Star Greedy p).

(** A run of pattern characters. *)
Fixpoint Str (s : string) : regex :=
  match s with
  | EmptyString => Eps
  | String c EmptyString => Chr c
  | String c s' => Cat (Chr c) (Str s')
  end.

(** A sequence of patterns. *)
Fixpoint Seq (rs : list regex) : regex :=
  match rs with
  | [] => Eps
  | [r] => r
  | r :: rs' => Cat r (Seq rs')
  end.

Definition captures : Type := list string.
Definition cont : Type := string -> captures -> option captures.

(** The text consumed between [s] and its suffix [s']. *)
Definition consumed (s s' : string) : string :=
  substring 0 (String.length s - String.length s') s.

Definition chr_eq (icase : bool) (c x : ascii) : bool :=
  if icase then Ascii.eqb (canonicalize c) (canonicalize x) else Ascii.eqb c x.

Fixpoint star_greedy (p : ascii -> bool) (s : string) (k : string -> option captures)
  : option captures :=
  match s with
  | String c s' =>
      if p c
      then match star_greedy p s' k with
           | Some r => Some r
           | None => k s
           end
      else k s
  | EmptyString => k s
  end.

Fixpoint star_lazy (p : ascii -> bool) (s : string) (k : string -> option captures)
  : option captures :=
  match k s with
  | Some r => Some r
  | None =>
      match s with
      | String c s' => if p c then star_lazy p s' k else None
      | EmptyString => None
      end
  end.

(** [exec icase n r s caps k]: match [r] at the front of [s], where [n] is
    the length of the whole input, then go on with [k]. *)
Fixpoint exec (icase : bool) (n : nat) (r : regex) (s : string) (caps : captures)
  (k : cont) : option captures :=
  match r with
  | Eps => k s caps
  | Bol => if (String.length s =? n)%nat then k s caps else None
  | Eol => match s with EmptyString => k s caps | _ => None end
  | Chr c =>
      match s with
      | String x s' => if chr_eq icase c x then k s' caps else None
      | EmptyString => None
      end
  | Cls p =>
      match s with
      | String x s' => if p x then k s' caps else None
      | EmptyString => None
      end
  | Star Greedy p => star_greedy p s (fun s' => k s' caps)
  | Star Lazy p => star_lazy p s (fun s' => k s' caps)
  | Opt r1 =>
      match exec icase n r1 s caps k with
      | Some res => Some res
      | None => k s caps
      end
  | Grp r1 => exec icase n r1 s caps (fun s' caps' => k s' (caps' ++ [consumed s s'])%list)
  | Cat r1 r2 => exec icase n r1 s caps (fun s' caps' => exec icase n r2 s' caps' k)
  end.

(** The leftmost match: every start position in turn. *)
Fixpoint search (icase : bool) (n : nat) (r : regex) (s : string) : option captures :=
  match exec icase n r s [] (fun _ caps => Some caps) with
  | Some caps => Some caps
  | None =>
      match s with
      | String _ s' => search icase n r s'
      | EmptyString => None
      end
  end.

Record pattern : Type := Pattern { source : regex; ignoreCase : bool }.

(** [s.match(p)] for a pattern without the [g] flag: the captured groups of
    the leftmost match, or [None] for [null]. *)
Definition re_match (p : pattern) (s : string) : option captures :=
  search (ignoreCase p) (String.length s) (source p) s.

End Regex.

Import Regex.


(** ** Errors *)

Inductive error : Type :=
  | EmptyInput                         (* 'Issue body is empty or invalid' *)
  | MalformedFrontmatter               (* 'Invalid YAML frontmatter format' *)
  | InvalidRecordId (value : string)   (* `Invalid record ID: ${value}` *)
  | RecordNotFound (id : Z)            (* `Record with ID ${id} not found` *)
  | Unauthorized (owner caller : string)
      (* `Unauthorized: Record belongs to ${owner}, not ${caller}` *)
  | UpdateFailed.                      (* 'Update failed: Record not found or unauthorized' *)

Inductive result (A : Type) : Type :=
  | Ok (a : A)
  | Throw (e : error).
Arguments Ok {A} a.
Arguments Throw {A} e.

(** ** issue-parser.js *)

Module IssueParser.

Inductive kind : Type := create | update.

Definition kind_eqb (a b : kind) : bool :=
  match a, b with
  | create, create | update, update => true
  | _, _ => false
  end.

(** The object [data] that the two extraction strategies fill in. *)
Abbreviation RawFieldMap := (gmap string string).

Record NormalizedRecord : Type := {
  type : kind;
  name : string;
  state : string;
  options : string;
  recordId : option number    (* [None] is [null] *)
}.

(** [a || b] on a property that may be undefined. *)
Definition or_else (a : option string) (b : option string) : option string :=
  match a with
  | Some s => if truthy s then a else b
  | None => b
  end.

(** [a || ''], a string in every case. *)
Definition or_empty (a : option string) : string :=
  match a with
  | Some s => s
  | None => ""
  end.

(** Truthiness of a property that may be undefined. *)
Definition truthy_prop (a : option string) : bool :=
  match a with
  | Some s => truthy s
  | None => false
  end.

(** [data.recordId || data.record_id || data.id] *)
Definition identifier (data : RawFieldMap) : option string :=
  or_else (data !! "recordId") (or_else (data !! "record_id") (data !! "id")).

Definition normalizeParsedData (data : RawFieldMap) : result NormalizedRecord :=
  let type := if truthy_prop (identifier data) then update else create in
  let name := or_empty (data !! "name") in
  let state := or_empty (data !! "state") in
  let options := or_empty (data !! "options") in
  (* [... || null] *)
  let recordId := if truthy_prop (identifier data) then identifier data else None in
  (* Convert recordId to number if present *)
  match recordId with
  | Some v =>
      match parseInt10 v with
      | NaN => Throw (InvalidRecordId v)
      | id => Ok {| type := type; name := name; state := state;
                    options := options; recordId := Some id |}
      end
  | None => Ok {| type := type; name := name; state := state;
                  options := options; recordId := None |}
  end.

(** The pattern of [parseYAMLFrontmatter]: [^---\s*\n], a lazily matched
    block of any characters in group 1, [\n---\s*\n], and the greedily
    matched remainder in group 2 up to [$]. *)
Definition frontmatter_re : pattern :=
  Pattern (Seq [Bol; Str "---"; Star Greedy is_space; Chr LF;
                Grp (Star Lazy any_char);
                Chr LF; Str "---"; Star Greedy is_space; Chr LF;
                Grp (Star Greedy any_char); Eol])
          false.

(** [/^(\w+):\s*(.+)$/] *)
Definition keyvalue_re : pattern :=
  Pattern (Seq [Bol; Grp (Plus is_word); Chr ":"; Star Greedy is_space;
                Grp (Plus is_dot); Eol])
          false.

(** Remove quotes if present. *)
Definition unquote (value : string) : string :=
  if (startsWith value dquote && endsWith value dquote)
     || (startsWith value squote && endsWith value squote)
  then slice_1_m1 value
  else value.

(** The body of the loop over the lines of the block. *)
Definition yaml_line (data : RawFieldMap) (line : string) : RawFieldMap :=
  match re_match keyvalue_re line with
  | Some [k; v] => <[trim k := unquote (trim v)]> data
  | _ => data
  end.

(** The extraction half of [parseYAMLFrontmatter]: everything before the
    final call of [normalizeParsedData]. *)
Definition extractYAMLFrontmatter (body : string) : result RawFieldMap :=
  match re_match frontmatter_re body with
  | Some (yamlContent :: _) => Ok (foldl yaml_line ∅ (split_lines yamlContent))
  | _ => Throw MalformedFrontmatter
  end.

Definition parseYAMLFrontmatter (body : string) : result NormalizedRecord :=
  match extractYAMLFrontmatter body with
  | Ok data => normalizeParsedData data
  | Throw e => Throw e
  end.

(** [/###\s*<title>\s*\n([^\n]+)/i], the title given as a pattern. *)
Definition heading_re (title : regex) : pattern :=
  Pattern (Seq [Str "###"; Star Greedy is_space; title; Star Greedy is_space;
                Chr LF; Grp (Plus not_newline)])
          true.

Definition record_id_title : regex :=
  Seq [Str "Record"; Star Greedy is_space; Str "ID"].

(** The entries of [patterns], in the order of the object literal. *)
Definition patterns : list (string * pattern) :=
  [ ("name", heading_re (Str "Name"));
    ("state", heading_re (Str "State"));
    ("options", heading_re (Seq [Str "Option"; Opt (Chr "s")]));
    ("recordId", heading_re record_id_title);
    ("record_id", heading_re record_id_title);
    ("id", heading_re (Str "ID")) ].

Definition markdown_entry (body : string) (data : RawFieldMap)
  (entry : string * pattern) : RawFieldMap :=
  match re_match (snd entry) body with
  | Some (v :: _) => <[fst entry := trim v]> data
  | _ => data
  end.

(** The extraction half of [parseMarkdownFormat]. *)
Definition extractMarkdownFormat (body : string) : RawFieldMap :=
  foldl (markdown_entry body) ∅ patterns.

Definition parseMarkdownFormat (body : string) : result NormalizedRecord :=
  normalizeParsedData (extractMarkdownFormat body).

(** [parseIssueBody]; [None] is a body that is absent or not a string. *)
Definition parseIssueBody (body : option string) : result NormalizedRecord :=
  match body with
  | None => Throw EmptyInput
  | Some b =>
      if negb (truthy b) then Throw EmptyInput
      else
        let trimmedBody := trim b in
        if startsWith trimmedBody "---"
        then parseYAMLFrontmatter trimmedBody
        else parseMarkdownFormat trimmedBody
  end.

(** The messages pushed onto [errors]. *)
Inductive verror : Type :=
  | TypeMismatch (expected got : kind)
      (* `Issue type mismatch: expected ${issueType}, got ${parsedData.type}` *)
  | MissingName                        (* 'Name is required' *)
  | MissingState                       (* 'State is required' *)
  | MissingRecordId.                   (* 'Record ID is required for updates' *)

Record ValidationResult : Type := {
  isValid : bool;
  errors : list verror
}.

(** [!parsedData.name || parsedData.name.trim() === ''] *)
Definition blank (s : string) : bool :=
  negb (truthy s) || String.eqb (trim s) "".

(** [!parsedData.recordId || isNaN(parsedData.recordId)] *)
Definition recordId_missing (r : option number) : bool :=
  match r with
  | None => true
  | Some n => negb (truthy_number n) || isNaN n
  end.

(** [errors.push(e)] under a condition. *)
Definition push_if (b : bool) (e : verror) (errors : list verror) : list verror :=
  if b then errors ++ [e] else errors.

(** [validateIssueData].  The trial [JSON.parse] of the options sits in a
    [try] whose [catch] is empty and its value is dropped, so it leaves
    [errors] as it is. *)
Definition validateIssueData (parsedData : NormalizedRecord) (issueType : kind)
  : ValidationResult :=
  let errors := [] in
  let errors := push_if (negb (kind_eqb (type parsedData) issueType))
                  (TypeMismatch issueType (type parsedData)) errors in
  let errors := push_if (blank (name parsedData)) MissingName errors in
  let errors := push_if (blank (state parsedData)) MissingState errors in
  let errors :=
    match issueType with
    | update => push_if (recordId_missing (recordId parsedData)) MissingRecordId errors
    | create => errors
    end in
  {| isValid := (length errors =? 0)%nat; errors := errors |}.

(** A label is a string or an object that may carry a [name]. *)
Inductive label : Type :=
  | LString (s : string)
  | LObject (name : option string).

(** [typeof l === 'string' ? l.toLowerCase() : l.name?.toLowerCase() || ''] *)
Definition label_name (l : label) : string :=
  match l with
  | LString s => toLowerCase s
  | LObject (Some n) => toLowerCase n
  | LObject None => ""
  end.

(** [labelNames.includes(x)] *)
Definition names_include (names : list string) (x : string) : bool :=
  existsb (String.eqb x) names.

(** [detectIssueType]; a title that is [null] or undefined is [None]. *)
Definition detectIssueType (title : option string) (labels : list label) : kind :=
  let titleLower := toLowerCase (or_empty title) in
  let labelNames := map label_name labels in
  if names_include labelNames "update" || names_include labelNames "update-record"
  then update
  else if names_include labelNames "create" || names_include labelNames "create-record"
  then create
  else if includes titleLower "[update]" || startsWith titleLower "update:"
  then update
  else if includes titleLower "[create]" || startsWith titleLower "create:"
  then create
  else create.

End IssueParser.
Import IssueParser.

(** ** db.js *)

Module Db.

(** [datetime('now')] yields a TEXT value. *)
Definition timestamp : Type := string.

(** The columns of a row of [users] other than the primary key. *)
Record fields : Type := {
  name : string;                 (* TEXT NOT NULL *)
  state : string;                (* TEXT NOT NULL *)
  options : option string;       (* TEXT, [None] is NULL *)
  github_username : string;      (* TEXT NOT NULL *)
  created_at : timestamp;
  updated_at : timestamp
}.

(** The object that [SELECT *] returns for one row. *)
Record row : Type := { id : Z; columns :> fields }.

(** The process and its database file: whether the module variable [db]
    holds an open handle, the table [users] keyed by [id], and the counter
    that AUTOINCREMENT keeps in [sqlite_sequence]. *)
Record store : Type := {
  db : bool;
  users : gmap Z fields;
  sqlite_sequence : Z
}.

(** A computation over the store that may throw; a throw keeps the store
    as it was at that point. *)
Definition M (A : Type) : Type := store -> store * result A.

#[global] Instance M_ret : MRet M := fun A a s => (s, Ok a).

#[global] Instance M_bind : MBind M := fun A B f m s =>
  match m s with
  | (s', Ok a) => f a s'
  | (s', Throw e) => (s', Throw e)
  end.

Definition throw {A : Type} (e : error) : M A := fun s => (s, Throw e).

(** [initDatabase]: the handle is opened once; [CREATE TABLE IF NOT EXISTS]
    and [CREATE INDEX IF NOT EXISTS] leave an existing table as it is, and a
    file without the table is the empty table. *)
Definition initDatabase : M unit := fun s =>
  if db s then (s, Ok tt)
  else ({| db := true; users := users s; sqlite_sequence := sqlite_sequence s |}, Ok tt).

Definition closeDatabase : M unit := fun s =>
  ({| db := false; users := users s; sqlite_sequence := sqlite_sequence s |}, Ok tt).

(** [SELECT * FROM users WHERE id = ?] with [stmt.get]. *)
Definition select_by_id (i : Z) : M (option row) := fun s =>
  (s, Ok ((fun f => {| id := i; columns := f |}) <$> users s !! i)).

(** The largest rowid of the table, 0 for the empty table. *)
Definition max_rowid (t : gmap Z fields) : Z :=
  map_fold (fun k _ acc => Z.max k acc) 0 t.

(** [INSERT INTO users (name, state, options, github_username, created_at,
    updated_at) VALUES (?, ?, ?, ?, datetime('now'), datetime('now'))] with
    [stmt.run]: AUTOINCREMENT takes one more than the largest rowid the
    table ever held; both time stamps are the one reading of the clock.
    The value is [lastInsertRowid]. *)
Definition insert_user (name state : string) (options : option string)
  (github_username : string) (now : timestamp) : M Z := fun s =>
  let rowid := Z.max (sqlite_sequence s) (max_rowid (users s)) + 1 in
  let f := {| name := name; state := state; options := options;
              github_username := github_username;
              created_at := now; updated_at := now |} in
  ({| db := db s; users := <[rowid := f]> (users s); sqlite_sequence := rowid |},
   Ok rowid).

(** [UPDATE users SET name = ?, state = ?, options = ?, updated_at =
    datetime('now') WHERE id = ? AND github_username = ?] with [stmt.run].
    The value is [changes]. *)
Definition update_user (name state : string) (options : option string)
  (i : Z) (github_username : string) (now : timestamp) : M nat := fun s =>
  match users s !! i with
  | Some f =>
      if String.eqb (Db.github_username f) github_username
      then
        let f' := {| name := name; state := state; options := options;
                     github_username := Db.github_username f;
                     created_at := created_at f; updated_at := now |} in
        ({| db := db s; users := <[i := f']> (users s);
            sqlite_sequence := sqlite_sequence s |}, Ok 1%nat)
      else (s, Ok 0%nat)
  | None => (s, Ok 0%nat)
  end.

(** [options || null] *)
Definition or_null (options : option string) : option string :=
  match options with
  | Some o => if truthy o then Some o else None
  | None => None
  end.

Definition getRecord (i : Z) : M (option row) :=
  _ ← initDatabase;
  select_by_id i.

(** [createRecord]; the value of [getRecord(result.lastInsertRowid)] is the
    row or [null]. *)
Definition createRecord (name state : string) (options : option string)
  (githubUsername : string) (now : timestamp) : M (option row) :=
  _ ← initDatabase;
  lastInsertRowid ← insert_user name state (or_null options) githubUsername now;
  getRecord lastInsertRowid.

Definition updateRecord (i : Z) (name state : string) (options : option string)
  (githubUsername : string) (now : timestamp) : M (option row) :=
  _ ← initDatabase;
  (* First verify the record exists and belongs to the user *)
  existing ← getRecord i;
  match existing : option row with
  | None => throw (RecordNotFound i)
  | Some existing =>
      if negb (String.eqb (github_username existing) githubUsername)
      then throw (Unauthorized (github_username existing) githubUsername)
      else
        changes ← update_user name state (or_null options) i githubUsername now;
        if (changes =? 0)%nat then throw UpdateFailed
        else getRecord i
  end.

(** A database file that was never written, before [initDatabase]. *)
Definition empty_store : store := {| db := false; users := ∅; sqlite_sequence := 0 |}.

(** The rows of the table as [SELECT *] objects. *)
Definition rows (s : store) : list row :=
  (fun kv => {| id := fst kv; columns := snd kv |}) <$> map_to_list (users s).

(** [ORDER BY created_at DESC]: TEXT values compare byte by byte.  Among
    rows with the same [created_at] SQL leaves the order open; the model
    has the one order that the sort below produces. *)
Definition newer_first (a b : row) : Prop :=
  String.le (created_at b) (created_at a).

#[global] Instance newer_first_dec : RelDecision newer_first.
Proof. intros a b. unfold newer_first. apply _. Defined.

(** [SELECT * FROM users WHERE github_username = ? ORDER BY created_at DESC
    LIMIT 1] with [stmt.get]. *)
Definition select_latest_by_username (githubUsername : string) : M (option row) :=
  fun s =>
    (s, Ok (head (merge_sort newer_first
                    (filter (fun r : row => github_username r = githubUsername) (rows s))))).

(** [SELECT * FROM users ORDER BY created_at DESC] with [stmt.all]. *)
Definition select_all : M (list row) := fun s =>
  (s, Ok (merge_sort newer_first (rows s))).

Definition getRecordByUsername (githubUsername : string) : M (option row) :=
  _ ← initDatabase;
  select_latest_by_username githubUsername.

Definition getAllRecords : M (list row) :=
  _ ← initDatabase;
  select_all.

(** *** Vocabulary for the statements about the store *)

(** The store once [initDatabase] has run. *)
Definition connect (s : store) : store := fst (initDatabase s).

(** The store after a successful [INSERT] of the columns [f]. *)
Definition inserted (s : store) (f : fields) : store :=
  let rowid := Z.max (sqlite_sequence s) (max_rowid (users s)) + 1 in
  {| db := true; users := <[rowid := f]> (users s); sqlite_sequence := rowid |}.

(** The store after a successful [UPDATE] of row [i]. *)
Definition updated (s : store) (i : Z) (f : fields) : store :=
  {| db := true; users := <[i := f]> (users s);
     sqlite_sequence := sqlite_sequence s |}.

(** An [options] argument that is falsy: [null], undefined or ['']. *)
Definition falsy_options (o : option string) : bool :=
  match o with
  | None => true
  | Some v => negb (truthy v)
  end.

(** A store that holds one record, created by alice. *)
Definition alice_fields : fields :=
  {| name := "Alice"; state := "CA"; options := Some "opt1";
     github_username := "alice";
     created_at := "2024-01-01 00:00:00"; updated_at := "2024-01-01 00:00:00" |}.

Definition alice_store : store :=
  {| db := false; users := {[ 1 := alice_fields ]}; sqlite_sequence := 1 |}.

End Db.

(** ** process-issue.js

    [processIssue] with its collaborators made explicit: the token and the
    issue of the workflow context are arguments, and the calls of the
    GitHub client ([postComment], [closeIssue]) and of [core] ([info],
    [setFailed], [setOutput]) are recorded, in order, as events.  The calls
    of the client are taken to return; the clock reading [now] is the one of
    the SQL statement that runs. *)

Module ProcessIssue.

(** [context.payload.issue], as far as it is read. *)
Record issue : Type := {
  number : Z;
  title : option string;
  body : option string;
  user_login : string;               (* [issue.user.login] *)
  labels : list label                (* [issue.labels || []] *)
}.

Record environment : Type := {
  input_github_token : string;       (* [core.getInput('github-token')], '' if unset *)
  GITHUB_TOKEN : option string;      (* [process.env.GITHUB_TOKEN] *)
  payload_issue : option issue
}.

(** What can be thrown inside [processIssue]. *)
Inductive thrown : Type :=
  | Thrown (e : error)               (* an [Error] of db.js or issue-parser.js *)
  | TypeError                        (* a property of [null] is read *)
  | TokenRequired                    (* 'GitHub token is required. ...' *)
  | NoIssue.                         (* 'No issue found in context' *)

(** The bodies of the comments. *)
Inductive comment : Type :=
  | ParseErrorComment (e : error)
      (* `Error parsing issue body: ${error.message}` *)
  | ValidationFailedComment (errors : list verror)
      (* `Validation failed:` and one line per error *)
  | CreateErrorComment (t : thrown)  (* `Error creating record: ${error.message}` *)
  | NotFoundComment (recordId : option Js.number)
      (* `Record with ID ${parsedData.recordId} not found` *)
  | UpdateErrorComment (t : thrown)  (* `Error updating record: ${error.message}` *)
  | CreatedComment (result : Db.row)
      (* `Successfully created record!` and the fields of the result *)
  | UpdatedComment (result : Db.row).
      (* `Successfully updated record!` and the fields of the result *)

(** The arguments of [core.setFailed]. *)
Inductive failure : Type :=
  | ParseFailed (e : error)          (* `Failed to parse issue body: ...` *)
  | ValidationFailed (errors : list verror)
  | CreateFailed (t : thrown)        (* `Failed to create record: ...` *)
  | NotFoundFailed (recordId : option Js.number)  (* `Record not found: ...` *)
  | UpdateFailedWith (t : thrown)    (* `Failed to update record: ...` *)
  | Unexpected (t : thrown).         (* `Unexpected error: ...` *)

Inductive event : Type :=
  | InfoProcessing (issueNumber : Z) (author : string)
  | InfoDetected (issueType : kind)
  | InfoParsed (parsedData : NormalizedRecord)
  | InfoProcessed                    (* 'Issue processed successfully' *)
  | PostComment (issueNumber : Z) (c : comment)
  | SetFailed (f : failure)
  | CloseIssue (issueNumber : Z)
  | SetOutputRecordId (id : Z)
  | SetOutputAction (action : kind).

(** [core.getInput('github-token') || process.env.GITHUB_TOKEN], then
    [!token]. *)
Definition token (env : environment) : option string :=
  if truthy (input_github_token env) then Some (input_github_token env)
  else GITHUB_TOKEN env.

Definition token_missing (env : environment) : bool :=
  match token env with
  | Some t => negb (truthy t)
  | None => true
  end.

(** [parsedData.options ? parsedData.options.trim() : null] *)
Definition options_argument (options : string) : option string :=
  if truthy options then Some (trim options) else None.

(** How a branch of the processing ends: with a result and its success
    message, or by a [return] after its own events. *)
Inductive branch : Type :=
  | Succeeded (result : Db.row) (successMessage : comment)
  | Returned (events : list event).

(** The branch [issueType === 'create']. *)
Definition create_branch (i : issue) (parsedData : NormalizedRecord)
  (now : Db.timestamp) (s : Db.store) : Db.store * branch :=
  match Db.createRecord (trim (name parsedData)) (trim (state parsedData))
          (options_argument (options parsedData)) (user_login i) now s with
  | (s', Ok (Some result)) => (s', Succeeded result (CreatedComment result))
  | (s', Ok None) =>
      (s', Returned [PostComment (number i) (CreateErrorComment TypeError);
                     SetFailed (CreateFailed TypeError)])
  | (s', Throw e) =>
      (s', Returned [PostComment (number i) (CreateErrorComment (Thrown e));
                     SetFailed (CreateFailed (Thrown e))])
  end.

(** The branch [issueType === 'update'].  A recordId that is [null] or NaN
    is bound as NULL, and [id = NULL] selects no row. *)
Definition update_branch (i : issue) (parsedData : NormalizedRecord)
  (now : Db.timestamp) (s : Db.store) : Db.store * branch :=
  let not_found s' :=
    (s', Returned [PostComment (number i) (NotFoundComment (recordId parsedData));
                   SetFailed (NotFoundFailed (recordId parsedData))]) in
  match recordId parsedData with
  | Some (Num id) =>
      (* Verify record exists *)
      match Db.getRecord id s with
      | (s1, Ok None) => not_found s1
      | (s1, Throw e) =>
          (s1, Returned [PostComment (number i) (UpdateErrorComment (Thrown e));
                         SetFailed (UpdateFailedWith (Thrown e))])
      | (s1, Ok (Some existingRecord)) =>
          match Db.updateRecord id (trim (name parsedData)) (trim (state parsedData))
                  (options_argument (options parsedData)) (user_login i) now s1 with
          | (s2, Ok (Some result)) => (s2, Succeeded result (UpdatedComment result))
          | (s2, Ok None) =>
              (s2, Returned [PostComment (number i) (UpdateErrorComment TypeError);
                             SetFailed (UpdateFailedWith TypeError)])
          | (s2, Throw e) =>
              (s2, Returned [PostComment (number i) (UpdateErrorComment (Thrown e));
                             SetFailed (UpdateFailedWith (Thrown e))])
          end
      end
  | _ => not_found (fst (Db.initDatabase s))
  end.

(** The body of the outer [try]: the store, the events, and what escapes to
    the outer [catch], if anything. *)
Definition try_block (env : environment) (now : Db.timestamp) (s : Db.store)
  : Db.store * list event * option thrown :=
  if token_missing env then (s, [], Some TokenRequired)
  else
    match payload_issue env with
    | None => (s, [], Some NoIssue)
    | Some i =>
        let issueNumber := number i in
        let log := [InfoProcessing issueNumber (user_login i)] in
        (* Detect issue type *)
        let issueType := detectIssueType (title i) (labels i) in
        let log := (log ++ [InfoDetected issueType])%list in
        (* Parse issue body *)
        match parseIssueBody (body i) with
        | Throw e =>
            (s, (log ++ [PostComment issueNumber (ParseErrorComment e);
                         SetFailed (ParseFailed e)])%list, None)
        | Ok parsedData =>
            let log := (log ++ [InfoParsed parsedData])%list in
            (* Validate parsed data *)
            let validation := validateIssueData parsedData issueType in
            if negb (isValid validation)
            then (s, (log ++ [PostComment issueNumber
                                (ValidationFailedComment (errors validation));
                              SetFailed (ValidationFailed (errors validation))])%list,
                  None)
            else
              (* Initialize database *)
              let s := fst (Db.initDatabase s) in
              let '(s, b) :=
                match issueType with
                | create => create_branch i parsedData now s
                | update => update_branch i parsedData now s
                end in
              match b with
              | Returned events => (s, (log ++ events)%list, None)
              | Succeeded result successMessage =>
                  (s, (log ++ [PostComment issueNumber successMessage;
                               CloseIssue issueNumber;
                               InfoProcessed;
                               SetOutputRecordId (Db.id result);
                               SetOutputAction issueType])%list, None)
              end
        end
    end.

(** [processIssue]: the [try] block, the outer [catch], which reports and
    throws again, and the [finally], which closes the database. *)
Definition processIssue (env : environment) (now : Db.timestamp) (s : Db.store)
  : Db.store * list event * option thrown :=
  let '(s', events, escaped) := try_block env now s in
  let events :=
    match escaped with
    | Some t => (events ++ [SetFailed (Unexpected t)])%list
    | None => events
    end in
  (fst (Db.closeDatabase s'), events, escaped).

End ProcessIssue.

(** * Vocabulary for the statements about the parser *)

Module Spec.

(** [matches icase n r s caps s' caps']: the pattern [r] can consume the
    front of [s] up to [s'], turning the captures [caps] into [caps'].  This
    is the relation that the backtracking of [exec] explores, without its
    order of preference. *)
Fixpoint matches (icase : bool) (n : nat) (r : regex) (s : string) (caps : captures)
  (s' : string) (caps' : captures) : Prop :=
  match r with
  | Eps => s' = s /\ caps' = caps
  | Bol => s' = s /\ caps' = caps /\ String.length s = n
  | Eol => s = "" /\ s' = s /\ caps' = caps
  | Chr c => exists x, s = String x s' /\ chr_eq icase c x = true /\ caps' = caps
  | Cls p => exists x, s = String x s' /\ p x = true /\ caps' = caps
  | Star _ p => exists w, s = w +:+ s' /\ all p w = true /\ caps' = caps
  | Opt r1 => (s' = s /\ caps' = caps) \/ matches icase n r1 s caps s' caps'
  | Grp r1 => exists c1, matches icase n r1 s caps s' c1 /\ caps' = (c1 ++ [consumed s s'])%list
  | Cat r1 r2 =>
      exists s1 c1, matches icase n r1 s caps s1 c1 /\ matches icase n r2 s1 c1 s' caps'
  end.






(** One of the three identifier keys holds a non-empty value. *)
Definition nonempty_identifier (data : RawFieldMap) : Prop :=
  exists k v, In k ["recordId"; "record_id"; "id"] /\ data !! k = Some v /\ v <> "".

(** One of the three identifier keys is a key of the map. *)
Definition identifier_key_present (data : RawFieldMap) : Prop :=
  exists k, In k ["recordId"; "record_id"; "id"] /\ is_Some (data !! k).

Definition absent_or_empty (o : option string) : Prop := o = None \/ o = Some "".

(** [v] is the identifier value of the raw map: the first non-empty one
    among the keys recordId, record_id and id. *)
Definition identifier_value (data : RawFieldMap) (v : string) : Prop :=
  v <> "" /\
  (data !! "recordId" = Some v \/
   (absent_or_empty (data !! "recordId") /\
    (data !! "record_id" = Some v \/
     (absent_or_empty (data !! "record_id") /\ data !! "id" = Some v)))).

(** A base-10 integer written out: an optional sign and one or more decimal
    digits, nothing else. *)
Definition decimal_integer (s : string) : bool :=
  match s with
  | String c r =>
      if Ascii.eqb c "-" || Ascii.eqb c "+"
      then negb (String.eqb r "") && all is_digit r
      else all is_digit s
  | EmptyString => false
  end.

(** After optional white space and an optional sign the text goes on with a
    decimal digit. *)
Definition starts_with_integer (v : string) : Prop :=
  exists ws sg d rest,
    v = ws +:+ sg +:+ String d rest /\
    all is_space ws = true /\ (sg = "" \/ sg = "+" \/ sg = "-") /\
    is_digit d = true.

(** Equality of two texts up to the case of their letters. *)
Inductive same_ci : string -> string -> Prop :=
  | same_ci_nil : same_ci "" ""
  | same_ci_cons c d s t :
      lower c = lower d -> same_ci s t -> same_ci (String c s) (String d t).

(** The text of a label: the string itself or the name of the object. *)
Definition label_text (l : label) : string :=
  match l with
  | LString s => s
  | LObject (Some n) => n
  | LObject None => ""
  end.

Definition has_label (labels : list label) (x : string) : Prop :=
  exists l, In l labels /\ same_ci (label_text l) x.

Definition title_contains (title x : string) : Prop :=
  exists pre tok post, title = pre +:+ tok +:+ post /\ same_ci tok x.

Definition title_starts_with (title x : string) : Prop :=
  exists tok post, title = tok +:+ post /\ same_ci tok x.

Definition update_label (labels : list label) : Prop :=
  has_label labels "update" \/ has_label labels "update-record".

Definition create_label (labels : list label) : Prop :=
  has_label labels "create" \/ has_label labels "create-record".

Definition update_title (title : string) : Prop :=
  title_contains title "[update]" \/ title_starts_with title "update:".

Definition create_title (title : string) : Prop :=
  title_contains title "[create]" \/ title_starts_with title "create:".

(** The decision order of the classifier: the first rule that applies
    gives the kind. *)
Inductive classified (title : string) (labels : list label) : kind -> Prop :=
  | rule_update_label :
      update_label labels -> classified title labels update
  | rule_create_label :
      ~ update_label labels -> create_label labels ->
      classified title labels create
  | rule_update_title :
      ~ update_label labels -> ~ create_label labels -> update_title title ->
      classified title labels update
  | rule_create_title :
      ~ update_label labels -> ~ create_label labels -> ~ update_title title ->
      create_title title -> classified title labels create
  | rule_default :
      ~ update_label labels -> ~ create_label labels -> ~ update_title title ->
      ~ create_title title -> classified title labels create.

End Spec.
Import Spec.

(** * Vocabulary for the further statements *)

Module Vocabulary.

(** A line of the form [key:rest]: a non-empty key of word characters, a
    colon, and a rest made of optional white space and a non-empty value
    without line terminator. *)
Definition key_value_line (line key rest : string) : Prop :=
  line = key +:+ ":" +:+ rest /\
  key <> "" /\ all is_word key = true /\
  exists ws value,
    rest = ws +:+ value /\ all is_space ws = true /\
    value <> "" /\ all is_dot value = true.

(** The six keys that the section strategy can set. *)
Definition section_keys : list string :=
  ["name"; "state"; "options"; "recordId"; "record_id"; "id"].

(** A pattern without capturing group. *)
Fixpoint groupless (r : regex) : bool :=
  match r with
  | Grp _ => false
  | Opt r1 => groupless r1
  | Cat r1 r2 => groupless r1 && groupless r2
  | _ => true
  end.

(** *** Bodies in the section format

    A body as an issue form renders it: sections that follow one another,
    each a heading line [### Title], white space up to a line break, and the
    value on the next line. *)

Inductive heading : Type := HName | HState | HOptions | HRecordId.

Definition title_text (h : heading) : string :=
  match h with
  | HName => "Name"
  | HState => "State"
  | HOptions => "Options"
  | HRecordId => "Record ID"
  end.

Definition heading_eqb (a b : heading) : bool :=
  match a, b with
  | HName, HName | HState, HState | HOptions, HOptions | HRecordId, HRecordId => true
  | _, _ => false
  end.

Record section : Type := {
  sec_heading : heading;
  sec_gap : string;      (* white space between the title and the line break *)
  sec_value : string;    (* the line of the value *)
  sec_sep : string       (* white space before the next heading *)
}.

(** The characters of a value: no line feed and no [#]. *)
Definition value_char (c : ascii) : bool :=
  not_newline c && negb (Ascii.eqb c "#").

Definition section_ok (s : section) : Prop :=
  all is_space (sec_gap s) = true /\ all is_space (sec_sep s) = true /\
  all value_char (sec_value s) = true /\
  exists c v, sec_value s = String c v /\ is_space c = false.

Fixpoint render (secs : list section) : string :=
  match secs with
  | [] => ""
  | s :: rest =>
      "### " +:+ title_text (sec_heading s) +:+ sec_gap s +:+ nl +:+ sec_value s +:+
      match rest with
      | [] => ""
      | _ :: _ => nl +:+ sec_sep s +:+ render rest
      end
  end.

(** The part of a heading pattern after the title. *)
Definition value_re : regex :=
  Seq [Star Greedy is_space; Chr LF; Grp (Plus not_newline)].

(** The five heading patterns of [patterns] (recordId and record_id share
    one), and the heading that each one reads. *)
Inductive heading_pattern : Type := PName | PState | POptions | PRecordId | PId.

Definition pattern_title (p : heading_pattern) : regex :=
  match p with
  | PName => Str "Name"
  | PState => Str "State"
  | POptions => Seq [Str "Option"; Opt (Chr "s")]
  | PRecordId => record_id_title
  | PId => Str "ID"
  end.

Definition reads (p : heading_pattern) (h : heading) : bool :=
  match p, h with
  | PName, HName | PState, HState | POptions, HOptions | PRecordId, HRecordId => true
  | _, _ => false
  end.

(** The line of the first section that the pattern [p] reads. *)
Fixpoint first_line (p : heading_pattern) (secs : list section) : option string :=
  match secs with
  | [] => None
  | s :: rest =>
      if reads p (sec_heading s) then Some (sec_value s) else first_line p rest
  end.

(** The value, trimmed, of the first section with the heading [h]. *)
Fixpoint first_value (h : heading) (secs : list section) : option string :=
  match secs with
  | [] => None
  | s :: rest =>
      if heading_eqb (sec_heading s) h then Some (trim (sec_value s))
      else first_value h rest
  end.

(** A text that is not white space only. *)
Definition not_blank (s : string) : Prop := all is_space s = false.

(** The events of a run of [processIssue] that post a comment, that report
    a failure, that close the issue. *)
Definition is_comment (e : ProcessIssue.event) : bool :=
  match e with ProcessIssue.PostComment _ _ => true | _ => false end.

Definition is_failure (e : ProcessIssue.event) : bool :=
  match e with ProcessIssue.SetFailed _ => true | _ => false end.

Definition is_close (e : ProcessIssue.event) : bool :=
  match e with ProcessIssue.CloseIssue _ => true | _ => false end.

(** The columns that a run of [processIssue] for the issue [i] writes from
    the parsed data, with the time stamps given. *)
Definition written_fields (i : ProcessIssue.issue) (parsedData : NormalizedRecord)
  (created updated : Db.timestamp) : Db.fields :=
  {| Db.name := trim (name parsedData);
     Db.state := trim (state parsedData);
     Db.options := Db.or_null (ProcessIssue.options_argument (options parsedData));
     Db.github_username := ProcessIssue.user_login i;
     Db.created_at := created;
     Db.updated_at := updated |}.

(** An issue by bob that asks for an update of record 1, with a token. *)
Definition bob_update_issue : ProcessIssue.issue :=
  {| ProcessIssue.number := 7;
     ProcessIssue.title := Some "[Update] take over";
     ProcessIssue.body :=
       Some (text ["### Name"; "Bob"; "### State"; "TX"; "### Record ID"; "1"]);
     ProcessIssue.user_login := "bob";
     ProcessIssue.labels := [] |}.

(** An issue by bob that asks for a new record. *)
Definition bob_create_issue : ProcessIssue.issue :=
  {| ProcessIssue.number := 8;
     ProcessIssue.title := Some "Create: new user";
     ProcessIssue.body := Some (text ["### Name"; " Bob "; "### State"; "TX"]);
     ProcessIssue.user_login := "bob";
     ProcessIssue.labels := [] |}.

(** What the body of that issue is parsed to. *)
Definition bob_create_parsed : NormalizedRecord :=
  {| type := create; name := "Bob"; state := "TX"; options := "";
     recordId := None |}.

Definition workflow (i : ProcessIssue.issue) : ProcessIssue.environment :=
  {| ProcessIssue.input_github_token := "";
     ProcessIssue.GITHUB_TOKEN := Some "token";
     ProcessIssue.payload_issue := Some i |}.

End Vocabulary.
Import Vocabulary.

(** * Properties of the record store *)

(** ** Strings *)

Section Strings.

Lemma app_nil_l (s : string) : "" +:+ s = s.
Proof. reflexivity. Qed.

Lemma app_cons (c : ascii) (s t : string) : String c s +:+ t = String c (s +:+ t).
Proof. reflexivity. Qed.

Lemma app_nil_r (s : string) : s +:+ "" = s.
Proof. induction s as [|c s IH]; [done|]. by rewrite app_cons, IH. Qed.

Lemma app_assoc (s t u : string) : (s +:+ t) +:+ u = s +:+ t +:+ u.
Proof. induction s as [|c s IH]; [done|]. by rewrite !app_cons, IH. Qed.

Lemma length_app (s t : string) :
  String.length (s +:+ t) = (String.length s + String.length t)%nat.
Proof. induction s as [|c s IH]; [done|]. rewrite app_cons. cbn. by rewrite IH. Qed.

Lemma substring_0_app (w s : string) : substring 0 (String.length w) (w +:+ s) = w.
Proof.
  induction w as [|c w IH]; cbn.
  - by destruct s.
  - rewrite app_cons. cbn. by rewrite IH.
Qed.

Lemma consumed_app (w s : string) : consumed (w +:+ s) s = w.
Proof.
  unfold consumed. rewrite length_app.
  replace (String.length w + String.length s - String.length s)%nat
    with (String.length w) by lia.
  apply substring_0_app.
Qed.

(** A suffix as long as the whole string is the whole string. *)
Lemma app_same_length (pre t : string) :
  String.length (pre +:+ t) = String.length t -> pre = "".
Proof. rewrite length_app. destruct pre; cbn; [done|lia]. Qed.

Lemma trimEnd_empty s : trimEnd s = "" <-> all is_space s = true.
Proof.
  induction s as [|c s IH]; cbn; [done|].
  destruct (trimEnd s) as [|d t] eqn:E.
  - destruct (is_space c); cbn; [tauto|]. split; done.
  - rewrite andb_true_iff. split; [done|]. intros [_ H]. apply IH in H. done.
Qed.

Lemma all_dropWhile p s : all p (dropWhile p s) = true <-> all p s = true.
Proof.
  induction s as [|c s IH]; cbn; [done|].
  destruct (p c) eqn:E; cbn; [done|]. by rewrite E.
Qed.

(** A text is empty after trimming exactly when it is white space only. *)
Lemma trim_empty s : trim s = "" <-> all is_space s = true.
Proof. unfold trim, trimStart. by rewrite trimEnd_empty, all_dropWhile. Qed.

End Strings.

(** ** The matcher against the matching relation *)

Section Matcher.

Variables (icase : bool) (n : nat).

Lemma star_greedy_sound p s k res :
  star_greedy p s k = Some res ->
  exists w s', s = w +:+ s' /\ all p w = true /\ k s' = Some res.
Proof.
  induction s as [|c s IH]; cbn.
  - intros H. by exists "", "".
  - destruct (p c) eqn:Hp.
    + destruct (star_greedy p s k) as [r|] eqn:E.
      * intros [= ->]. destruct (IH eq_refl) as (w & s' & -> & Hw & Hk).
        exists (String c w), s'. cbn. by rewrite Hp, Hw.
      * intros H. by exists "", (String c s).
    + intros H. by exists "", (String c s).
Qed.

Lemma star_greedy_complete p w s' k :
  all p w = true -> is_Some (k s') -> is_Some (star_greedy p (w +:+ s') k).
Proof.
  intros Hw Hk. induction w as [|c w IH]; cbn.
  - rewrite app_nil_l. destruct s' as [|c s']; cbn; [done|].
    destruct (p c); [|done]. by destruct (star_greedy p s' k).
  - cbn in Hw. apply andb_true_iff in Hw as [Hc Hw]. rewrite app_cons. cbn.
    rewrite Hc. destruct (IH Hw) as [r ->]. by eexists.
Qed.

Lemma star_lazy_sound p s k res :
  star_lazy p s k = Some res ->
  exists w s', s = w +:+ s' /\ all p w = true /\ k s' = Some res.
Proof.
  induction s as [|c s IH]; cbn.
  - destruct (k "") eqn:E; [|done]. intros [= ->]. by exists "", "".
  - destruct (k (String c s)) eqn:E.
    + intros [= ->]. by exists "", (String c s).
    + destruct (p c) eqn:Hp; [|done]. intros H.
      destruct (IH H) as (w & s' & -> & Hw & Hk).
      exists (String c w), s'. cbn. by rewrite Hp, Hw.
Qed.

Lemma star_lazy_complete p w s' k :
  all p w = true -> is_Some (k s') -> is_Some (star_lazy p (w +:+ s') k).
Proof.
  intros Hw Hk. induction w as [|c w IH]; cbn.
  - rewrite app_nil_l. destruct Hk as [r Hk].
    destruct s' as [|c s']; cbn; by rewrite Hk.
  - cbn in Hw. apply andb_true_iff in Hw as [Hc Hw]. rewrite app_cons. cbn.
    destruct (k (String c (w +:+ s'))); [done|]. rewrite Hc. by apply IH.
Qed.

(** What [exec] returns comes from a match of the pattern. *)
Lemma exec_sound r : forall s caps k res,
  exec icase n r s caps k = Some res ->
  exists s' caps', matches icase n r s caps s' caps' /\ k s' caps' = Some res.
Proof.
  induction r as [| | |c|p|g p|r1 IH|r1 IH|r1 IH1 r2 IH2]; intros s caps k res; cbn.
  - intros H. by exists s, caps.
  - destruct (String.length s =? n)%nat eqn:E; [|done].
    apply Nat.eqb_eq in E. intros H. by exists s, caps.
  - destruct s; [|done]. intros H. by exists "", caps.
  - destruct s as [|x s]; [done|]. destruct (chr_eq icase c x) eqn:E; [|done].
    intros H. exists s, caps. split; [by exists x|done].
  - destruct s as [|x s]; [done|]. destruct (p x) eqn:E; [|done].
    intros H. exists s, caps. split; [by exists x|done].
  - intros H.
    assert (exists w s', s = w +:+ s' /\ all p w = true /\ k s' caps = Some res)
      as (w & s' & -> & Hw & Hk).
    { destruct g; [by apply star_greedy_sound in H|by apply star_lazy_sound in H]. }
    exists s', caps. split; [by exists w|done].
  - destruct (exec icase n r1 s caps k) as [r|] eqn:E.
    + intros [= ->]. destruct (IH _ _ _ _ E) as (s' & caps' & Hm & Hk).
      exists s', caps'. split; [by right|done].
    + intros H. exists s, caps. split; [by left|done].
  - intros H. destruct (IH _ _ _ _ H) as (s' & c1 & Hm & Hk).
    exists s', (c1 ++ [consumed s s'])%list. split; [by exists c1|done].
  - intros H. destruct (IH1 _ _ _ _ H) as (s1 & c1 & Hm1 & H2).
    destruct (IH2 _ _ _ _ H2) as (s' & caps' & Hm2 & Hk).
    exists s', caps'. split; [by exists s1, c1|done].
Qed.

(** Where the pattern has a match that the continuation accepts, [exec]
    returns a result. *)
Lemma exec_complete r : forall s caps s' caps' k,
  matches icase n r s caps s' caps' -> is_Some (k s' caps') ->
  is_Some (exec icase n r s caps k).
Proof.
  induction r as [| | |c|p|g p|r1 IH|r1 IH|r1 IH1 r2 IH2];
    intros s caps s' caps' k; cbn.
  - by intros [-> ->].
  - intros (-> & -> & Hn) Hk. apply Nat.eqb_eq in Hn. by rewrite Hn.
  - by intros (-> & -> & ->).
  - intros (x & -> & Hx & ->) Hk. by rewrite Hx.
  - intros (x & -> & Hx & ->) Hk. by rewrite Hx.
  - intros (w & -> & Hw & ->) Hk.
    destruct g; [by apply star_greedy_complete|by apply star_lazy_complete].
  - intros Hm Hk. destruct (exec icase n r1 s caps k) as [r|] eqn:E; [done|].
    destruct Hm as [[-> ->]|Hm]; [done|].
    destruct (IH _ _ _ _ _ Hm Hk) as [r Hr]. congruence.
  - intros (c1 & Hm & ->) Hk.
    by apply (IH s caps s' c1 (fun s' caps' => k s' (caps' ++ [consumed s s'])%list)).
  - intros (s1 & c1 & Hm1 & Hm2) Hk.
    apply (IH1 s caps s1 c1); [done|]. by apply (IH2 s1 c1 s' caps').
Qed.

(** A result of [search] is a match at some position of the input. *)
Lemma search_sound r s res :
  search icase n r s = Some res ->
  exists pre t s', s = pre +:+ t /\ matches icase n r t [] s' res.
Proof.
  induction s as [|c s IH]; cbn.
  - destruct (exec icase n r "" [] _) as [caps|] eqn:E; [|done].
    intros [= ->]. apply exec_sound in E as (s' & caps' & Hm & [= ->]).
    by exists "", "", s'.
  - destruct (exec icase n r (String c s) [] _) as [caps|] eqn:E.
    + intros [= ->]. apply exec_sound in E as (s' & caps' & Hm & [= ->]).
      by exists "", (String c s), s'.
    + intros H. destruct (IH H) as (pre & t & s' & -> & Hm).
      by exists (String c pre), t, s'.
Qed.

(** A match at the front of the input makes [search] succeed. *)
Lemma search_complete r s s' caps' :
  matches icase n r s [] s' caps' -> is_Some (search icase n r s).
Proof.
  intros Hm.
  assert (is_Some (exec icase n r s [] (fun _ caps => Some caps))) as [res Hr].
  { by apply (exec_complete r s [] s' caps'). }
  destruct s; cbn; by rewrite Hr.
Qed.

End Matcher.

Section Store.
Import Db.

Lemma initDatabase_eq s : initDatabase s = (connect s, Ok tt).
Proof. unfold connect, initDatabase. by destruct (db s). Qed.

Lemma users_connect s : users (connect s) = users s.
Proof. unfold connect, initDatabase. by destruct (db s). Qed.

Lemma sequence_connect s : sqlite_sequence (connect s) = sqlite_sequence s.
Proof. unfold connect, initDatabase. by destruct (db s). Qed.

Lemma db_connect s : db (connect s) = true.
Proof. unfold connect, initDatabase. by destruct (db s) eqn:E. Qed.

Lemma connect_idem s : connect (connect s) = connect s.
Proof. unfold connect at 1. unfold initDatabase. by rewrite db_connect. Qed.

Lemma bind_eq {A B} (m : M A) (f : A -> M B) s s' a :
  m s = (s', Ok a) -> (m ≫= f) s = f a s'.
Proof. intros H. unfold mbind, M_bind. by rewrite H. Qed.

Lemma bind_throw {A B} (m : M A) (f : A -> M B) s s' e :
  m s = (s', Throw e) -> (m ≫= f) s = (s', Throw e).
Proof. intros H. unfold mbind, M_bind. by rewrite H. Qed.

Lemma getRecord_eq i s :
  getRecord i s = (connect s, Ok (Build_row i <$> users s !! i)).
Proof.
  unfold getRecord. rewrite (bind_eq _ _ _ _ _ (initDatabase_eq s)).
  unfold select_by_id. by rewrite users_connect.
Qed.

(** Every key of the table is at most [max_rowid]. *)
Lemma max_rowid_ge (t : gmap Z fields) k f : t !! k = Some f -> k <= max_rowid t.
Proof.
  unfold max_rowid. revert k f.
  apply (map_fold_weak_ind
           (fun r (m : gmap Z fields) => forall k f, m !! k = Some f -> k <= r)).
  - intros k f H. by rewrite lookup_empty in H.
  - intros i x m r Hi IH k f H.
    destruct (decide (i = k)) as [->|Hne].
    + lia.
    + rewrite lookup_insert_ne in H by done. specialize (IH k f H). lia.
Qed.

(** The rowid that AUTOINCREMENT hands out is not in use. *)
Lemma fresh_rowid s :
  users s !! (Z.max (sqlite_sequence s) (max_rowid (users s)) + 1) = None.
Proof.
  destruct (users s !! _) as [f|] eqn:E; [|done].
  apply max_rowid_ge in E. lia.
Qed.

Lemma createRecord_eq name state options owner now s :
  let f := {| name := name; state := state; options := or_null options;
              github_username := owner; created_at := now; updated_at := now |} in
  createRecord name state options owner now s =
    (inserted s f,
     Ok (Some {| id := Z.max (sqlite_sequence s) (max_rowid (users s)) + 1;
                 columns := f |})).
Proof.
  intros f. unfold createRecord.
  rewrite (bind_eq _ _ _ _ _ (initDatabase_eq s)).
  unfold mbind at 1, M_bind at 1, insert_user.
  rewrite users_connect, sequence_connect, db_connect.
  rewrite getRecord_eq. cbn [users]. rewrite lookup_insert_eq. cbn.
  done.
Qed.

Lemma updateRecord_eq i name state options owner now s :
  updateRecord i name state options owner now s =
    match users s !! i with
    | None => (connect s, Throw (RecordNotFound i))
    | Some old =>
        if String.eqb (github_username old) owner
        then
          let new := {| name := name; state := state; options := or_null options;
                        github_username := github_username old;
                        created_at := created_at old; updated_at := now |} in
          (updated s i new, Ok (Some {| id := i; columns := new |}))
        else (connect s, Throw (Unauthorized (github_username old) owner))
    end.
Proof.
  unfold updateRecord.
  rewrite (bind_eq _ _ _ _ _ (initDatabase_eq s)).
  rewrite (bind_eq _ _ _ _ _ (getRecord_eq i (connect s))).
  rewrite connect_idem, users_connect.
  destruct (users s !! i) as [old|] eqn:E; cbn; [|done].
  destruct (String.eqb (github_username old) owner) eqn:Eo; cbn; [|done].
  unfold mbind, M_bind, update_user.
  rewrite users_connect, E, Eo, sequence_connect, db_connect. cbn.
  rewrite getRecord_eq. cbn. rewrite lookup_insert_eq. cbn.
  unfold updated, connect, initDatabase. by cbn.
Qed.

Lemma connect_connected s : db s = true -> connect s = s.
Proof. intros H. unfold connect, initDatabase. by rewrite H. Qed.

(** C1. An [updateRecord] on an id that no record has throws
    [RecordNotFound]; on a record whose [github_username] is not the
    caller's it throws [Unauthorized]; and whenever [updateRecord] throws,
    the table [users] (every stored record with all its columns) and the
    AUTOINCREMENT counter are what they were before the call. *)
Theorem update_failure_leaves_store (s : store) (i : Z) (name state : string)
  (options : option string) (owner : string) (now : timestamp) :
  (users s !! i = None ->
     snd (updateRecord i name state options owner now s) = Throw (RecordNotFound i)) /\
  (forall old, users s !! i = Some old -> github_username old <> owner ->
     snd (updateRecord i name state options owner now s)
       = Throw (Unauthorized (github_username old) owner)) /\
  (forall e, snd (updateRecord i name state options owner now s) = Throw e ->
     users (fst (updateRecord i name state options owner now s)) = users s /\
     sqlite_sequence (fst (updateRecord i name state options owner now s))
       = sqlite_sequence s).
Proof.
  rewrite updateRecord_eq. split; [|split].
  - by intros ->.
  - intros old -> Hne. apply String.eqb_neq in Hne. by rewrite Hne.
  - intros e. destruct (users s !! i) as [old|]; cbn.
    + destruct (String.eqb (github_username old) owner); cbn; [done|].
      intros _. by rewrite users_connect, sequence_connect.
    + intros _. by rewrite users_connect, sequence_connect.
Qed.

Lemma update_failure_leaves_store_witness :
  snd (updateRecord 1 "Mallory" "TX" None "bob" "2024-02-02 00:00:00" alice_store)
    = Throw (Unauthorized "alice" "bob") /\
  users (fst (updateRecord 1 "Mallory" "TX" None "bob" "2024-02-02 00:00:00" alice_store))
    = users alice_store.
Proof.
  destruct (update_failure_leaves_store alice_store 1 "Mallory" "TX" None "bob"
              "2024-02-02 00:00:00") as (_ & Hu & Hf).
  assert (Hthrow := Hu alice_fields eq_refl ltac:(discriminate)).
  split; [exact Hthrow|]. exact (proj1 (Hf _ Hthrow)).
Defined.

(** C2. After [createRecord("Alice", "CA", "opt1", "alice")] has returned a
    record, which it does in every store and under an id that no record
    had, [getRecord] of that id returns this record: name "Alice", state
    "CA", options "opt1", github_username "alice", and [updated_at] equal
    to [created_at]. *)
Theorem create_get_roundtrip (s : store) (now : timestamp) :
  exists s' r,
    createRecord "Alice" "CA" (Some "opt1") "alice" now s = (s', Ok (Some r)) /\
    users s !! id r = None /\
    getRecord (id r) s' = (s', Ok (Some r)) /\
    name r = "Alice" /\ state r = "CA" /\ options r = Some "opt1" /\
    github_username r = "alice" /\ updated_at r = created_at r.
Proof.
  eexists _, _. split; [apply createRecord_eq|]. cbn.
  split; [apply fresh_rowid|]. split; [|done].
  rewrite getRecord_eq. rewrite connect_connected by done.
  cbn. by rewrite lookup_insert_eq.
Qed.

(** C9. A successful [updateRecord(id, ...)] keeps the record under its id
    with the [github_username] and [created_at] it had, sets name, state,
    options (a falsy one as NULL) and [updated_at] to the new values, and
    leaves every record with another id as it was. *)
Theorem successful_update_frame (s s' : store) (i : Z) (name state : string)
  (options : option string) (owner : string) (now : timestamp) (r : option row) :
  updateRecord i name state options owner now s = (s', Ok r) ->
  exists old new,
    users s !! i = Some old /\ users s' !! i = Some new /\
    r = Some {| id := i; columns := new |} /\
    github_username new = github_username old /\
    created_at new = created_at old /\
    Db.name new = name /\ Db.state new = state /\
    Db.options new = or_null options /\ updated_at new = now /\
    (forall j, j <> i -> users s' !! j = users s !! j) /\
    sqlite_sequence s' = sqlite_sequence s.
Proof.
  rewrite updateRecord_eq.
  destruct (users s !! i) as [old|] eqn:E; [|discriminate].
  destruct (String.eqb (github_username old) owner); [|discriminate].
  cbn. intros [= <- <-]. eexists old, _. cbn.
  rewrite lookup_insert_eq. repeat split; try done.
  intros j Hj. by rewrite lookup_insert_ne.
Qed.

Lemma successful_update_frame_witness :
  exists old new,
    users alice_store !! 1 = Some old /\
    users (fst (updateRecord 1 "Alicia" "NY" (Some "opt2") "alice"
                  "2024-03-03 00:00:00" alice_store)) !! 1 = Some new /\
    github_username new = github_username old /\
    created_at new = created_at old /\
    Db.name new = "Alicia".
Proof.
  destruct (successful_update_frame alice_store _ 1 "Alicia" "NY" (Some "opt2")
              "alice" "2024-03-03 00:00:00" _ eq_refl)
    as (old & new & H1 & H2 & _ & H4 & H5 & H6 & _).
  exists old, new. repeat split; assumption.
Defined.

(** C10. When the [options] argument is falsy (the empty string, [null]),
    [createRecord] and a successful [updateRecord] store NULL in the
    [options] column, and [getRecord] of the id then returns the record
    with [options] NULL. *)
Theorem falsy_options_stored_null (options : option string) (s : store)
  (name state owner : string) (now : timestamp) :
  falsy_options options = true ->
  (exists s' r,
     createRecord name state options owner now s = (s', Ok (Some r)) /\
     Db.options r = None /\
     getRecord (id r) s' = (s', Ok (Some r))) /\
  (forall i s' r,
     updateRecord i name state options owner now s = (s', Ok r) ->
     exists r', r = Some r' /\ Db.options r' = None /\
                getRecord i s' = (s', Ok (Some r'))).
Proof.
  intros Hf.
  assert (Hnull : or_null options = None).
  { destruct options as [o|]; cbn in *; [|done].
    by destruct (truthy o). }
  split.
  - eexists _, _. split; [apply createRecord_eq|]. cbn. split; [done|].
    rewrite getRecord_eq, connect_connected by done.
    cbn. by rewrite lookup_insert_eq.
  - intros i s' r. rewrite updateRecord_eq.
    destruct (users s !! i) as [old|]; [|discriminate].
    destruct (String.eqb (github_username old) owner); [|discriminate].
    cbn. intros [= <- <-]. eexists. split; [done|]. cbn. split; [done|].
    rewrite getRecord_eq, connect_connected by done.
    cbn. by rewrite lookup_insert_eq.
Qed.

Lemma falsy_options_stored_null_witness :
  (exists s' r,
     createRecord "Bob" "TX" (Some "") "bob" "2024-04-04 00:00:00" alice_store
       = (s', Ok (Some r)) /\
     Db.options r = None /\
     getRecord (id r) s' = (s', Ok (Some r))) /\
  (exists s' r,
     updateRecord 1 "Alice" "NY" (Some "") "alice" "2024-04-04 00:00:00" alice_store
       = (s', Ok (Some r)) /\
     Db.options r = None /\
     getRecord 1 s' = (s', Ok (Some r))).
Proof.
  split.
  - exact (proj1 (falsy_options_stored_null (Some "") alice_store "Bob" "TX" "bob"
                    "2024-04-04 00:00:00" eq_refl)).
  - destruct (proj2 (falsy_options_stored_null (Some "") alice_store "Alice" "NY"
                       "alice" "2024-04-04 00:00:00" eq_refl) 1 _ _ eq_refl)
      as (r & Hr & Ho & Hg).
    eexists _, r. split; [|split; [exact Ho|exact Hg]].
    rewrite <- Hr. reflexivity.
Defined.

(** [updateRecord] succeeds exactly on an existing record of the caller. *)
Lemma updateRecord_succeeds_iff i name state options owner now s :
  (exists s' r, updateRecord i name state options owner now s = (s', Ok r)) <->
  (exists old, users s !! i = Some old /\ github_username old = owner).
Proof.
  rewrite updateRecord_eq. destruct (users s !! i) as [old|].
  - destruct (String.eqb_spec (github_username old) owner) as [Ho|Ho].
    + split; [by exists old|]. intros _. by eexists _, _.
    + split; [by intros (? & ? & ?)|]. intros (? & [= <-] & ?). done.
  - split; [by intros (? & ? & ?)|]. by intros (? & ? & _).
Qed.

(** [createRecord] leaves the records that were there as they were. *)
Lemma createRecord_frame name state options owner now s j f :
  users s !! j = Some f ->
  users (fst (createRecord name state options owner now s)) !! j = Some f.
Proof.
  intros Hj. rewrite createRecord_eq. cbn.
  rewrite lookup_insert_ne; [done|].
  intros <-. by rewrite fresh_rowid in Hj.
Qed.

End Store.

(** * Properties of the parser *)

Section Frontmatter.


(** A run of pattern characters matches itself, case-sensitively. *)
Lemma matches_Str n p s caps : matches false n (Str p) (p +:+ s) caps s caps.
Proof.
  induction p as [|c p IH]; [done|].
  destruct p as [|d p].
  - cbn. exists c. by rewrite Ascii.eqb_refl.
  - cbn [Str matches]. exists (String d p +:+ s), caps. split; [|done].
    exists c. cbn. by rewrite Ascii.eqb_refl.
Qed.

Lemma matches_Str_inv n p s caps s' caps' :
  matches false n (Str p) s caps s' caps' -> s = p +:+ s' /\ caps' = caps.
Proof.
  revert s caps. induction p as [|c p IH]; intros s caps.
  - by intros [-> ->].
  - destruct p as [|d p].
    + cbn. intros (x & -> & Hx & ->). by apply Ascii.eqb_eq in Hx as ->.
    + cbn [Str matches]. intros (s1 & c1 & (x & -> & Hx & ->) & Hm).
      cbn in Hx. apply Ascii.eqb_eq in Hx as ->.
      apply IH in Hm as [-> ->]. done.
Qed.


Lemma all_any_char s : all any_char s = true.
Proof. by induction s. Qed.





End Frontmatter.

Section Normalizer.

Lemma truthy_true s : truthy s = true <-> s <> "".
Proof. unfold truthy. destruct (String.eqb_spec s ""); naive_solver. Qed.

Lemma truthy_false s : truthy s = false <-> s = "".
Proof. unfold truthy. destruct (String.eqb_spec s ""); naive_solver. Qed.

Lemma or_else_Some a b v :
  or_else a b = Some v /\ truthy v = true <->
  (a = Some v /\ v <> "") \/ (absent_or_empty a /\ b = Some v /\ v <> "").
Proof.
  unfold or_else, absent_or_empty. destruct a as [x|].
  - destruct (truthy x) eqn:E.
    + apply truthy_true in E. rewrite truthy_true.
      intuition (try congruence).
    + apply truthy_false in E. rewrite truthy_true. subst x.
      intuition (try congruence).
  - rewrite truthy_true. intuition (try congruence).
Qed.

(** The chain [data.recordId || data.record_id || data.id] is truthy with
    value [v] exactly when [v] is the first non-empty identifier value. *)
Lemma identifier_value_iff data v :
  identifier_value data v <-> identifier data = Some v /\ truthy v = true.
Proof.
  unfold identifier, identifier_value.
  rewrite or_else_Some.
  split.
  - intros (Hv & [H|(Ha & [H|(Hb & H)])]).
    + by left.
    + right. split; [done|]. split; [|done].
      apply (proj1 (proj2 (or_else_Some _ _ v) (or_introl (conj H Hv)))).
    + right. split; [done|]. split; [|done].
      apply (proj1 (proj2 (or_else_Some _ _ v) (or_intror (conj Hb (conj H Hv))))).
  - intros [[H Hv]|(Ha & H & Hv)].
    + split; [done|]. by left.
    + split; [done|]. right. split; [done|].
      destruct (proj1 (or_else_Some _ _ v) (conj H (proj2 (truthy_true v) Hv)))
        as [[? ?]|(? & ? & ?)]; [by left|by right].
Qed.

Lemma absent_or_nonempty (o : option string) :
  absent_or_empty o \/ exists v, o = Some v /\ v <> "".
Proof.
  destruct o as [v|]; [|by left; left].
  destruct (String.eqb_spec v "") as [->|Hne]; [by left; right|right; eauto].
Qed.

Lemma nonempty_identifier_value data :
  nonempty_identifier data <-> exists v, identifier_value data v.
Proof.
  unfold nonempty_identifier, identifier_value. split.
  - intros (k & v & Hk & Hv & Hne).
    destruct (absent_or_nonempty (data !! "recordId")) as [Ha|(a & Ha & Hane)];
      [|exists a; by split; [|left]].
    destruct (absent_or_nonempty (data !! "record_id")) as [Hb|(b & Hb & Hbne)];
      [|exists b; by split; [|right; split; [|left]]].
    exists v. split; [done|]. right. split; [done|]. right. split; [done|].
    cbn in Hk. destruct Hk as [<-|[<-|[<-|[]]]]; [| |done].
    + destruct Ha as [Ha|Ha]; rewrite Ha in Hv; congruence.
    + destruct Hb as [Hb|Hb]; rewrite Hb in Hv; congruence.
  - intros (v & Hne & [H|(_ & [H|(_ & H)])]).
    + exists "recordId", v. cbn. tauto.
    + exists "record_id", v. cbn. tauto.
    + exists "id", v. cbn. tauto.
Qed.

Lemma nonempty_identifier_iff data :
  nonempty_identifier data <-> truthy_prop (identifier data) = true.
Proof.
  rewrite nonempty_identifier_value. split.
  - intros (v & Hv). apply identifier_value_iff in Hv as [-> Hv]. done.
  - unfold truthy_prop. destruct (identifier data) as [v|] eqn:E; [|done].
    intros Hv. exists v. apply identifier_value_iff. by rewrite E.
Qed.

(** [normalizeParsedData] by cases on the identifier chain. *)
Lemma normalizeParsedData_eq data :
  normalizeParsedData data =
    match identifier data with
    | Some v =>
        if truthy v
        then match parseInt10 v with
             | NaN => Throw (InvalidRecordId v)
             | Num z => Ok {| type := update; name := or_empty (data !! "name");
                              state := or_empty (data !! "state");
                              options := or_empty (data !! "options");
                              recordId := Some (Num z) |}
             end
        else Ok {| type := create; name := or_empty (data !! "name");
                   state := or_empty (data !! "state");
                   options := or_empty (data !! "options"); recordId := None |}
    | None => Ok {| type := create; name := or_empty (data !! "name");
                    state := or_empty (data !! "state");
                    options := or_empty (data !! "options"); recordId := None |}
    end.
Proof.
  unfold normalizeParsedData. destruct (identifier data) as [v|]; cbn; [|done].
  destruct (truthy v); [|done]. by destruct (parseInt10 v).
Qed.

(** *** [parseInt] *)

Lemma dropWhile_split p s : exists w, s = w +:+ dropWhile p s /\ all p w = true.
Proof.
  induction s as [|c s (w & IH & Hw)]; cbn.
  - by exists "".
  - destruct (p c) eqn:E.
    + exists (String c w). rewrite app_cons, <- IH. cbn. by rewrite E, Hw.
    + by exists "".
Qed.

Lemma dropWhile_app p w c s :
  all p w = true -> p c = false -> dropWhile p (w +:+ String c s) = String c s.
Proof.
  intros Hw Hc. induction w as [|d w IH]; cbn.
  - rewrite app_nil_l. cbn. by rewrite Hc.
  - cbn in Hw. apply andb_true_iff in Hw as [Hd Hw]. rewrite app_cons. cbn.
    rewrite Hd. by apply IH.
Qed.

Lemma digits_acc acc s : is_Some acc -> is_Some (digits acc s).
Proof.
  revert acc. induction s as [|c s IH]; intros acc Ha; cbn; [done|].
  destruct (is_digit c); [|done]. by apply IH.
Qed.

Lemma digits_None s :
  is_Some (digits None s) <-> exists d r, s = String d r /\ is_digit d = true.
Proof.
  destruct s as [|c s]; cbn.
  - split; [by intros [? ?]|by intros (? & ? & ? & _)].
  - destruct (is_digit c) eqn:E.
    + split; [by exists c, s|]. intros _. by apply digits_acc.
    + split; [by intros [? ?]|]. intros (d & r & [= -> ->] & Hd). congruence.
Qed.

Lemma digit_not_space d : is_digit d = true -> is_space d = false.
Proof.
  unfold is_digit, is_space, between. intros H.
  apply andb_true_iff in H as [H1 H2].
  apply N.leb_le in H1. apply N.leb_le in H2.
  repeat match goal with
         | |- context [(?a <=? ?b)%N] => destruct (N.leb_spec a b)
         | |- context [(?a =? ?b)%N] => destruct (N.eqb_spec a b)
         end; cbn; try done; lia.
Qed.

Lemma digit_not_sign d :
  is_digit d = true -> Ascii.eqb d "-" = false /\ Ascii.eqb d "+" = false.
Proof.
  intros H. split.
  - destruct (Ascii.eqb_spec d "-") as [->|]; [discriminate H|done].
  - destruct (Ascii.eqb_spec d "+") as [->|]; [discriminate H|done].
Qed.

Lemma number_of_digits_NaN d sign : number_of_digits d sign = NaN <-> d = None.
Proof. destruct d; cbn; split; congruence. Qed.

(** [parseInt(v, 10)] is a number exactly when [v] goes on with a digit
    after its leading white space and sign. *)
Lemma parseInt10_number v :
  (exists z, parseInt10 v = Num z) <-> starts_with_integer v.
Proof.
  unfold parseInt10, trimStart, starts_with_integer. split.
  - intros [z Hz].
    destruct (dropWhile_split is_space v) as (ws & Hv & Hws).
    destruct (dropWhile is_space v) as [|c r]; [done|].
    assert (Hsome : forall s sg, number_of_digits (digits None s) sg = Num z ->
                      exists d r', s = String d r' /\ is_digit d = true).
    { intros s sg H. apply digits_None. destruct (digits None s); [by eexists|done]. }
    destruct (Ascii.eqb_spec c "-") as [->|_].
    { apply Hsome in Hz as (d & r' & -> & Hd). exists ws, "-", d, r'. tauto. }
    destruct (Ascii.eqb_spec c "+") as [->|_].
    { apply Hsome in Hz as (d & r' & -> & Hd). exists ws, "+", d, r'. tauto. }
    apply Hsome in Hz as (d & r' & [= -> ->] & Hd). exists ws, "", d, r'. tauto.
  - intros (ws & sg & d & rest & -> & Hws & Hsg & Hd).
    assert (Hnum : forall sign, exists z,
               number_of_digits (digits None (String d rest)) sign = Num z).
    { intros sign.
      destruct (proj2 (digits_None (String d rest))) as [z ->]; [by exists d, rest|].
      by eexists. }
    destruct Hsg as [->|[->| ->]].
    + rewrite app_nil_l, dropWhile_app by auto using digit_not_space.
      destruct (digit_not_sign d Hd) as [-> ->]. apply Hnum.
    + rewrite app_cons, app_nil_l, dropWhile_app by done. cbn [Ascii.eqb].
      change (Ascii.eqb "+" "-") with false. change (Ascii.eqb "+" "+") with true.
      cbn iota. apply Hnum.
    + rewrite app_cons, app_nil_l, dropWhile_app by done.
      change (Ascii.eqb "-" "-") with true. cbn iota. apply Hnum.
Qed.

Lemma parseInt10_NaN v : parseInt10 v = NaN <-> ~ starts_with_integer v.
Proof.
  rewrite <- parseInt10_number. split.
  - intros -> [z Hz]. discriminate.
  - intros Hn. destruct (parseInt10 v) as [|z]; [done|]. destruct Hn. by exists z.
Qed.

End Normalizer.

Section NormalizerClaims.

(** C3, as the code has it.  When [normalizeParsedData] succeeds, the kind
    is UPDATE exactly when one of the keys recordId, record_id, id holds a
    non-empty value, and CREATE otherwise; recordId is non-null exactly
    when the kind is UPDATE. *)
Theorem normalized_kind (data : RawFieldMap) (r : NormalizedRecord) :
  normalizeParsedData data = Ok r ->
  (type r = update <-> nonempty_identifier data) /\
  (recordId r <> None <-> type r = update) /\
  (type r = create <-> ~ nonempty_identifier data).
Proof.
  rewrite normalizeParsedData_eq, nonempty_identifier_iff.
  destruct (identifier data) as [v|]; cbn.
  - destruct (truthy v).
    + destruct (parseInt10 v); [done|]. intros [= <-]. cbn.
      intuition congruence.
    + intros [= <-]. cbn. intuition congruence.
  - intros [= <-]. cbn. intuition congruence.
Qed.

Lemma normalized_kind_witness :
  nonempty_identifier ({[ "record_id" := "42"; "name" := "Bob" ]} : RawFieldMap).
Proof.
  assert (H : normalizeParsedData {[ "record_id" := "42"; "name" := "Bob" ]}
              = Ok {| type := update; name := "Bob"; state := ""; options := "";
                      recordId := Some (Num 42) |})
    by (vm_compute; reflexivity).
  apply (proj1 (proj1 (normalized_kind _ _ H))). reflexivity.
Defined.

(** C3 as stated fails: a raw map whose id key is present with an empty
    value is normalised to CREATE with a null recordId. *)
Lemma empty_identifier_is_create :
  identifier_key_present ({[ "id" := "" ]} : RawFieldMap) /\
  normalizeParsedData {[ "id" := "" ]}
    = Ok {| type := create; name := ""; state := ""; options := "";
            recordId := None |}.
Proof.
  split.
  - exists "id". split; [cbn; tauto|]. by eexists.
  - vm_compute. reflexivity.
Qed.

(** The frontmatter strategy produces such a map from a quoted empty value. *)
Lemma empty_identifier_extracted :
  extractYAMLFrontmatter (text ["---"; "name: Bob"; "id: ''"; "---"; "notes"])
    = Ok {[ "id" := ""; "name" := "Bob" ]}.
Proof. vm_compute. reflexivity. Qed.

(** C8, as the code has it.  For the identifier value [v] of a raw map,
    [normalizeParsedData] throws [InvalidRecordId v] exactly when [v], after
    its leading white space and one optional sign, does not go on with a
    decimal digit, and it throws nothing else; otherwise it succeeds with
    the recordId [parseInt(v, 10)].  The body made of the heading
    [### Record ID] and the line [abc] is refused with [InvalidRecordId]. *)
Theorem invalid_record_id_iff (data : RawFieldMap) (v : string) :
  identifier_value data v ->
  (normalizeParsedData data = Throw (InvalidRecordId v) <-> ~ starts_with_integer v) /\
  (forall e, normalizeParsedData data = Throw e -> e = InvalidRecordId v) /\
  (starts_with_integer v ->
   exists r z, normalizeParsedData data = Ok r /\ parseInt10 v = Num z /\
               recordId r = Some (Num z)) /\
  parseIssueBody (Some (text ["### Record ID"; "abc"])) = Throw (InvalidRecordId "abc").
Proof.
  intros Hv. apply identifier_value_iff in Hv as [Hi Ht].
  rewrite normalizeParsedData_eq, Hi, Ht, <- parseInt10_NaN.
  split; [split|split; [|split]].
  - by destruct (parseInt10 v).
  - by intros ->.
  - intros e. destruct (parseInt10 v); congruence.
  - intros Hs. apply parseInt10_number in Hs as [z ->]. by eexists _, z.
  - vm_compute. reflexivity.
Qed.

Lemma invalid_record_id_iff_witness :
  ~ starts_with_integer "x1" /\ starts_with_integer " -7b".
Proof.
  split.
  - assert (Hv : identifier_value ({[ "id" := "x1" ]} : RawFieldMap) "x1").
    { split; [discriminate|]. right. split; [by left|]. right. split; [by left|].
      reflexivity. }
    apply (proj1 (proj1 (invalid_record_id_iff _ _ Hv))). vm_compute. reflexivity.
  - exists " ", "-", "7"%char, "b". cbn. tauto.
Defined.

(** C8 as stated fails: the identifier value [12abc] is not a base-10
    integer, yet the normaliser takes it as the recordId 12; and the
    identifier value [''] of the key id raises nothing. *)
Lemma nonnumeric_identifier_accepted :
  identifier_value ({[ "recordId" := "12abc" ]} : RawFieldMap) "12abc" /\
  decimal_integer "12abc" = false /\
  normalizeParsedData {[ "recordId" := "12abc" ]}
    = Ok {| type := update; name := ""; state := ""; options := "";
            recordId := Some (Num 12) |}.
Proof.
  split; [|split].
  - split; [discriminate|]. by left.
  - reflexivity.
  - vm_compute. reflexivity.
Qed.

End NormalizerClaims.

Section Validator.

(** The record-id check of [validateIssueData] reports a recordId that is
    null, NaN or 0. *)
Lemma recordId_missing_iff (r : option number) :
  recordId_missing r = true <-> r = None \/ r = Some NaN \/ r = Some (Num 0).
Proof.
  destruct r as [[|z]|]; cbn; [tauto|..|tauto].
  destruct (Z.eqb_spec z 0) as [->|Hz]; cbn.
  - tauto.
  - split; [done|]. intros [H|[H|H]]; congruence.
Qed.

Lemma missing_record_id_reported (r : NormalizedRecord) :
  In MissingRecordId (errors (validateIssueData r update)) <->
  recordId r = None \/ recordId r = Some NaN \/ recordId r = Some (Num 0).
Proof.
  rewrite <- recordId_missing_iff. unfold validateIssueData, push_if. cbn.
  destruct (kind_eqb (type r) update), (blank (name r)), (blank (state r)),
    (recordId_missing (recordId r)); cbn; intuition congruence.
Qed.

(** C4, at the input where the code departs from it: the body with the
    headings Name, State and Record ID and the identifier 0 is normalised
    to an UPDATE of record 0, and the validation against UPDATE reports
    'Record ID is required for updates'. *)
Theorem record_id_zero_reported_missing :
  parseIssueBody
    (Some (text ["### Name"; "Bob"; "### State"; "TX"; "### Record ID"; "0"]))
    = Ok {| type := update; name := "Bob"; state := "TX"; options := "";
            recordId := Some (Num 0) |} /\
  validateIssueData
    {| type := update; name := "Bob"; state := "TX"; options := "";
       recordId := Some (Num 0) |} update
    = {| isValid := false; errors := [MissingRecordId] |}.
Proof. split; vm_compute; reflexivity. Qed.

(** C5. For a record whose kind is the expected one, whose recordId passes
    the record-id check when the expected kind is UPDATE, and whose name and
    state are empty after trimming, the validation is not valid and its
    errors are 'Name is required' then 'State is required', and no other. *)
Theorem validator_collects_name_and_state (r : NormalizedRecord) (expected : kind) :
  type r = expected ->
  (expected = update -> recordId_missing (recordId r) = false) ->
  trim (name r) = "" ->
  trim (state r) = "" ->
  validateIssueData r expected
    = {| isValid := false; errors := [MissingName; MissingState] |}.
Proof.
  intros Ht Hid Hn Hs. unfold validateIssueData, blank.
  rewrite Hn, Hs, Ht, !orb_true_r.
  assert (kind_eqb expected expected = true) as -> by by destruct expected.
  cbn. destruct expected; [done|]. by rewrite Hid.
Qed.

Lemma validator_collects_name_and_state_witness :
  validateIssueData
    {| type := update; name := "  "; state := ""; options := "x";
       recordId := Some (Num 7) |} update
    = {| isValid := false; errors := [MissingName; MissingState] |}.
Proof.
  apply validator_collects_name_and_state; reflexivity.
Defined.

End Validator.

Section Classifier.

Lemma same_ci_iff s t : same_ci s t <-> toLowerCase s = toLowerCase t.
Proof.
  split.
  - induction 1 as [|c d s t Hc _ IH]; cbn; [done|]. by rewrite Hc, IH.
  - revert t. induction s as [|c s IH]; intros [|d t]; cbn; try done.
    + constructor.
    + intros [= Hc Hs]. constructor; [done|]. by apply IH.
Qed.

Lemma toLowerCase_app a b : toLowerCase (a +:+ b) = toLowerCase a +:+ toLowerCase b.
Proof. induction a as [|c a IH]; [done|]. rewrite !app_cons. cbn. by rewrite IH. Qed.

Lemma toLowerCase_app_inv t a b :
  toLowerCase t = a +:+ b ->
  exists a' b', t = a' +:+ b' /\ toLowerCase a' = a /\ toLowerCase b' = b.
Proof.
  revert t. induction a as [|c a IH]; intros t.
  - rewrite app_nil_l. intros <-. by exists "", t.
  - rewrite app_cons. destruct t as [|d t]; cbn; [done|].
    intros [= Hd Ht]. destruct (IH _ Ht) as (a' & b' & -> & Ha & Hb).
    exists (String d a'), b'. cbn. by rewrite Hd, Ha.
Qed.

Lemma startsWith_iff s p : startsWith s p = true <-> exists post, s = p +:+ post.
Proof.
  revert s. induction p as [|a p IH]; intros s.
  - split; [by exists s|by destruct s].
  - destruct s as [|b s]; cbn.
    + split; [done|]. by intros [post H].
    + rewrite andb_true_iff, IH. split.
      * intros [Hab [post ->]]. apply Ascii.eqb_eq in Hab as ->. by exists post.
      * intros [post H]. rewrite app_cons in H. injection H as -> ->.
        split; [apply Ascii.eqb_refl|by exists post].
Qed.

Lemma includes_iff s p :
  includes s p = true <-> exists pre post, s = pre +:+ p +:+ post.
Proof.
  induction s as [|c s IH]; cbn [includes]; rewrite orb_true_iff, startsWith_iff.
  - split.
    + intros [[post H]|H]; [|done]. by exists "", post.
    + intros (pre & post & H). left. destruct pre; [by exists post|done].
  - rewrite IH. split.
    + intros [[post H]|(pre & post & ->)]; [by exists "", post|].
      by exists (String c pre), post.
    + intros ([|d pre] & post & H).
      * left. by exists post.
      * right. rewrite app_cons in H. injection H as -> ->. by exists pre, post.
Qed.

Lemma label_name_eq l : label_name l = toLowerCase (label_text l).
Proof. by destruct l as [s|[n|]]. Qed.

(** A lower-case name is among the lowered label names exactly when a label
    has it up to case. *)
Lemma names_include_iff labels x :
  toLowerCase x = x ->
  names_include (map label_name labels) x = true <-> has_label labels x.
Proof.
  intros Hx. unfold names_include, has_label. rewrite existsb_exists. split.
  - intros (n & Hn & He). apply String.eqb_eq in He. subst n.
    apply in_map_iff in Hn as (l & Hn & Hl). exists l. split; [done|].
    apply same_ci_iff. by rewrite Hx, <- Hn, label_name_eq.
  - intros (l & Hl & Hs). apply same_ci_iff in Hs. exists (label_name l). split.
    + apply in_map_iff. by exists l.
    + apply String.eqb_eq. by rewrite label_name_eq, Hs.
Qed.

Lemma title_contains_iff title x :
  toLowerCase x = x ->
  includes (toLowerCase title) x = true <-> title_contains title x.
Proof.
  intros Hx. rewrite includes_iff. unfold title_contains. split.
  - intros (pre & post & H).
    apply toLowerCase_app_inv in H as (pre' & r & -> & _ & H).
    apply toLowerCase_app_inv in H as (tok & post' & -> & H & _).
    exists pre', tok, post'. split; [done|]. apply same_ci_iff. by rewrite Hx.
  - intros (pre & tok & post & -> & Hs). apply same_ci_iff in Hs.
    exists (toLowerCase pre), (toLowerCase post).
    by rewrite !toLowerCase_app, Hs, Hx.
Qed.

Lemma title_starts_with_iff title x :
  toLowerCase x = x ->
  startsWith (toLowerCase title) x = true <-> title_starts_with title x.
Proof.
  intros Hx. rewrite startsWith_iff. unfold title_starts_with. split.
  - intros (post & H).
    apply toLowerCase_app_inv in H as (tok & post' & -> & H & _).
    exists tok, post'. split; [done|]. apply same_ci_iff. by rewrite Hx.
  - intros (tok & post & -> & Hs). apply same_ci_iff in Hs.
    exists (toLowerCase post). by rewrite toLowerCase_app, Hs, Hx.
Qed.

Lemma update_label_iff labels :
  update_label labels <->
  names_include (map label_name labels) "update"
  || names_include (map label_name labels) "update-record" = true.
Proof.
  unfold update_label. by rewrite orb_true_iff, !names_include_iff.
Qed.

Lemma create_label_iff labels :
  create_label labels <->
  names_include (map label_name labels) "create"
  || names_include (map label_name labels) "create-record" = true.
Proof.
  unfold create_label. by rewrite orb_true_iff, !names_include_iff.
Qed.

Lemma update_title_iff title :
  update_title title <->
  includes (toLowerCase title) "[update]" || startsWith (toLowerCase title) "update:"
  = true.
Proof.
  unfold update_title.
  by rewrite orb_true_iff, title_contains_iff, title_starts_with_iff.
Qed.

Lemma create_title_iff title :
  create_title title <->
  includes (toLowerCase title) "[create]" || startsWith (toLowerCase title) "create:"
  = true.
Proof.
  unfold create_title.
  by rewrite orb_true_iff, title_contains_iff, title_starts_with_iff.
Qed.

(** C6. [detectIssueType] gives the kind of the first rule that applies, up
    to case: a label update or update-record, UPDATE; a label create or
    create-record, CREATE; a title that contains [[update]] or starts with
    [update:], UPDATE; a title that contains [[create]] or starts with
    [create:], CREATE; otherwise CREATE.  An absent title counts as the
    empty one.  The title "[Update] fix record" without labels gives UPDATE
    and "Create: new user" without labels gives CREATE. *)
Theorem classifier_first_match (title : string) (labels : list label) :
  (forall k, classified title labels k <-> detectIssueType (Some title) labels = k) /\
  detectIssueType None labels = detectIssueType (Some "") labels /\
  detectIssueType (Some "[Update] fix record") [] = update /\
  detectIssueType (Some "Create: new user") [] = create.
Proof.
  split; [|done].
  intros k. unfold detectIssueType. cbn [or_empty].
  assert (Hb : forall (P : Prop) (b : bool), (P <-> b = true) ->
                 (b = true /\ P) \/ (b = false /\ ~ P)).
  { intros P [|] HP; [left|right]; split; try done; try tauto.
    intros H. by apply HP in H. }
  destruct (Hb _ _ (update_label_iff labels)) as [[-> Hul]|[-> Hul]].
  { split; [|intros <-; by apply rule_update_label]. destruct 1; tauto. }
  destruct (Hb _ _ (create_label_iff labels)) as [[-> Hcl]|[-> Hcl]].
  { split; [|intros <-; by apply rule_create_label]. destruct 1; tauto. }
  destruct (Hb _ _ (update_title_iff title)) as [[-> Hut]|[-> Hut]].
  { split; [|intros <-; by apply rule_update_title]. destruct 1; tauto. }
  destruct (Hb _ _ (create_title_iff title)) as [[-> Hct]|[-> Hct]].
  { split; [|intros <-; by apply rule_create_title]. destruct 1; tauto. }
  split; [|intros <-; by apply rule_default]. destruct 1; tauto.
Qed.

End Classifier.

(** * Scenarios *)

Section Scenarios.

Example trim_example : trim (text ["  ab c "; " "]) = "ab c".
Proof. reflexivity. Qed.

Example unquote_examples :
  unquote "'TX'" = "TX" /\ unquote "'" = "" /\ unquote "'TX" = "'TX" /\
  unquote (dquote +:+ "a b" +:+ dquote) = "a b".
Proof. repeat split; reflexivity. Qed.

Example parseInt10_examples :
  parseInt10 "42" = Num 42 /\ parseInt10 "-7" = Num (-7) /\
  parseInt10 "+15" = Num 15 /\ parseInt10 "007" = Num 7 /\
  parseInt10 "  5 " = Num 5 /\ parseInt10 "12abc" = Num 12 /\
  parseInt10 "0" = Num 0 /\ parseInt10 "" = NaN /\ parseInt10 "-" = NaN /\
  parseInt10 "--5" = NaN /\ parseInt10 "abc" = NaN /\ parseInt10 "0x10" = Num 0.
Proof. repeat split; reflexivity. Qed.

(** The section-format scenario of the specification. *)
Example section_format_scenario :
  parseIssueBody
    (Some (text ["### Name"; "Bob"; "### State"; "TX"; "### Record ID"; "42"]))
  = Ok {| type := update; name := "Bob"; state := "TX"; options := "";
          recordId := Some (Num 42) |}.
Proof. vm_compute. reflexivity. Qed.

(** Headings are matched up to case and with free spacing. *)
Example section_format_headings :
  extractMarkdownFormat
    (text ["###name"; " Bob "; "### STATE  "; ""; "TX"; "### Options"; "a,b";
           "### id"; "7"])
  = {[ "name" := "Bob"; "state" := "TX"; "options" := "a,b"; "id" := "7" ]}.
Proof. vm_compute. reflexivity. Qed.

(** In the frontmatter block the last occurrence of a key wins and lines
    that are not [key: value] are skipped. *)
Example frontmatter_scenario :
  extractYAMLFrontmatter
    (text ["---"; "name: Bob"; "# a comment"; "state: 'TX'"; "name: Rob";
           "record_id: 12"; "---"; "free text"])
  = Ok {[ "name" := "Rob"; "state" := "TX"; "record_id" := "12" ]}.
Proof. vm_compute. reflexivity. Qed.

Example empty_body : parseIssueBody None = Throw EmptyInput /\
                     parseIssueBody (Some "") = Throw EmptyInput.
Proof. split; reflexivity. Qed.

Example classifier_labels :
  detectIssueType (Some "[create] x") [LObject (Some "Update-Record")] = update /\
  detectIssueType (Some "update: x") [LString "CREATE"] = create /\
  detectIssueType (Some "please update") [LObject None] = create /\
  detectIssueType None [] = create.
Proof. repeat split; reflexivity. Qed.

(** The not-found scenario of the specification. *)
Example update_on_empty_store :
  Db.updateRecord 99999 "A" "B" None "alice" "2024-01-01 00:00:00" Db.empty_store
  = (Db.connect Db.empty_store, Throw (RecordNotFound 99999)).
Proof. vm_compute. reflexivity. Qed.

End Scenarios.

(** * Further properties of the record store *)

Section StoreMore.
Import Db.

Lemma max_rowid_nonneg (t : gmap Z fields) : 0 <= max_rowid t.
Proof.
  unfold max_rowid.
  apply (map_fold_weak_ind (fun r (_ : gmap Z fields) => 0 <= r)); [done|].
  intros i x m r _ IH. lia.
Qed.

Lemma max_rowid_le (t : gmap Z fields) b :
  0 <= b -> (forall k f, t !! k = Some f -> k <= b) -> max_rowid t <= b.
Proof.
  intros Hb. unfold max_rowid.
  apply (map_fold_weak_ind
           (fun r (m : gmap Z fields) => (forall k f, m !! k = Some f -> k <= b) -> r <= b)).
  - done.
  - intros i x m r Hi IH H.
    assert (i <= b) by (apply (H i x); by rewrite lookup_insert_eq).
    assert (r <= b); [|lia].
    apply IH. intros k f Hk. apply (H k f).
    rewrite lookup_insert_ne; [done|]. intros ->. congruence.
Qed.

Lemma max_rowid_insert (t : gmap Z fields) k f :
  max_rowid t < k -> max_rowid (<[k := f]> t) = k.
Proof.
  intros Hk. pose proof (max_rowid_nonneg t).
  assert (k <= max_rowid (<[k := f]> t)).
  { eapply max_rowid_ge. apply lookup_insert_eq. }
  assert (max_rowid (<[k := f]> t) <= k); [|lia].
  apply max_rowid_le; [lia|]. intros j g Hj.
  destruct (decide (k = j)) as [<-|Hne]; [lia|].
  rewrite lookup_insert_ne in Hj by done. apply max_rowid_ge in Hj. lia.
Qed.

(** X1. The id that [createRecord] assigns is positive, larger than the id
    of every record in the table and larger than the AUTOINCREMENT counter,
    which it becomes; the table afterwards is the old one with the new row
    added, so its size grows by one and every old record is as it was. *)
Theorem createRecord_fresh_id (name state : string) (options : option string)
  (owner : string) (now : timestamp) (s : store) :
  exists s' r,
    createRecord name state options owner now s = (s', Ok (Some r)) /\
    0 < id r /\ sqlite_sequence s < id r /\ sqlite_sequence s' = id r /\
    (forall j f, users s !! j = Some f -> j < id r) /\
    users s' = <[id r := columns r]> (users s) /\
    size (users s') = S (size (users s)) /\
    (forall j f, users s !! j = Some f -> users s' !! j = Some f).
Proof.
  eexists _, _. split; [apply createRecord_eq|]. cbn.
  pose proof (max_rowid_nonneg (users s)) as H0.
  split; [lia|]. split; [lia|]. split; [done|].
  split. { intros j f Hj. apply max_rowid_ge in Hj. lia. }
  split; [done|]. split.
  - apply map_size_insert_None, fresh_rowid.
  - intros j f Hj. rewrite lookup_insert_ne; [done|].
    intros <-. by rewrite fresh_rowid in Hj.
Qed.

(** X2. Two calls of [createRecord] in a row hand out consecutive ids. *)
Theorem createRecord_consecutive_ids (s : store) (n1 s1 n2 s2 : string)
  (o1 o2 : option string) (u1 u2 : string) (t1 t2 : timestamp)
  (st1 st2 : store) (r1 r2 : row) :
  createRecord n1 s1 o1 u1 t1 s = (st1, Ok (Some r1)) ->
  createRecord n2 s2 o2 u2 t2 st1 = (st2, Ok (Some r2)) ->
  id r2 = id r1 + 1.
Proof.
  rewrite !createRecord_eq. intros [= <- <-]. cbn. intros [= _ <-]. cbn.
  rewrite max_rowid_insert; lia.
Qed.

Lemma createRecord_consecutive_ids_witness :
  exists st1 r1 st2 r2,
    createRecord "Alice" "CA" None "alice" "2024-01-01 00:00:00" empty_store
      = (st1, Ok (Some r1)) /\
    createRecord "Bob" "TX" None "bob" "2024-01-02 00:00:00" st1
      = (st2, Ok (Some r2)) /\
    id r1 = 1 /\ id r2 = id r1 + 1.
Proof.
  eexists _, _, _, _.
  split; [apply createRecord_eq|]. split; [apply createRecord_eq|].
  split; [reflexivity|].
  eapply createRecord_consecutive_ids; apply createRecord_eq.
Defined.

(** X3. [updateRecord] never throws 'Update failed: Record not found or
    unauthorized', and whether it succeeds or throws it keeps the set of
    ids of the table and the AUTOINCREMENT counter. *)
Theorem updateRecord_keeps_ids (i : Z) (name state : string)
  (options : option string) (owner : string) (now : timestamp) (s : store) :
  snd (updateRecord i name state options owner now s) <> Throw UpdateFailed /\
  dom (users (fst (updateRecord i name state options owner now s))) = dom (users s) /\
  sqlite_sequence (fst (updateRecord i name state options owner now s))
    = sqlite_sequence s.
Proof.
  rewrite updateRecord_eq. destruct (users s !! i) as [old|] eqn:E.
  - destruct (String.eqb (github_username old) owner); cbn.
    + split; [done|]. split; [|done].
      apply dom_insert_lookup_L. by rewrite E.
    + by rewrite users_connect, sequence_connect.
  - cbn. by rewrite users_connect, sequence_connect.
Qed.

(** What [options || null] binds: a non-empty text as it is, and NULL for
    [null], undefined and the empty text. *)
Lemma or_null_value (o : option string) :
  (forall v, o = Some v -> v <> "" -> or_null o = Some v) /\
  (o = None \/ o = Some "" -> or_null o = None).
Proof.
  split.
  - intros v -> Hv. cbn. apply truthy_true in Hv. by rewrite Hv.
  - by intros [-> | ->].
Qed.

(** X4. A record created by one user and then updated by the same user
    carries the new name and state, the new options (a non-empty text as
    it was given, NULL when the argument is [null] or the empty text),
    the [created_at] of its creation and the [updated_at] of the update,
    under the same id, and [getRecord] returns it. *)
Theorem create_then_update (s : store) (n1 s1 : string) (o1 : option string)
  (owner : string) (t1 : timestamp) (n2 s2 : string) (o2 : option string)
  (t2 : timestamp) :
  exists st1 r1 st2 r2,
    createRecord n1 s1 o1 owner t1 s = (st1, Ok (Some r1)) /\
    updateRecord (id r1) n2 s2 o2 owner t2 st1 = (st2, Ok (Some r2)) /\
    getRecord (id r1) st2 = (st2, Ok (Some r2)) /\
    id r2 = id r1 /\ name r2 = n2 /\ state r2 = s2 /\
    (forall v, o2 = Some v -> v <> "" -> options r2 = Some v) /\
    (o2 = None \/ o2 = Some "" -> options r2 = None) /\
    github_username r2 = owner /\ created_at r2 = t1 /\ updated_at r2 = t2.
Proof.
  eexists _, _, _, _. split; [apply createRecord_eq|]. cbn.
  rewrite updateRecord_eq. cbn. rewrite lookup_insert_eq. cbn.
  rewrite String.eqb_refl. split; [done|]. split.
  { rewrite getRecord_eq, connect_connected by done. cbn.
    by rewrite lookup_insert_eq. }
  destruct (or_null_value o2) as [Hsome Hnone].
  split_and!; done.
Qed.

(** X5. A record created by one user cannot be updated by another: the
    update throws [Unauthorized] and [getRecord] still returns the record
    as it was created. *)
Theorem create_then_foreign_update (s : store) (n1 s1 : string)
  (o1 : option string) (owner : string) (t1 : timestamp) (n2 s2 : string)
  (o2 : option string) (caller : string) (t2 : timestamp) :
  caller <> owner ->
  exists st1 r1 st2,
    createRecord n1 s1 o1 owner t1 s = (st1, Ok (Some r1)) /\
    updateRecord (id r1) n2 s2 o2 caller t2 st1
      = (st2, Throw (Unauthorized owner caller)) /\
    getRecord (id r1) st2 = (st2, Ok (Some r1)).
Proof.
  intros Hne. eexists _, _, _. split; [apply createRecord_eq|]. cbn.
  rewrite updateRecord_eq. cbn. rewrite lookup_insert_eq. cbn.
  assert (String.eqb owner caller = false) as ->.
  { apply String.eqb_neq. congruence. }
  split; [done|].
  rewrite getRecord_eq, connect_connected by done. cbn.
  by rewrite lookup_insert_eq.
Qed.

Lemma create_then_foreign_update_witness :
  exists st1 r1 st2,
    createRecord "Alice" "CA" (Some "opt1") "alice" "2024-01-01 00:00:00" empty_store
      = (st1, Ok (Some r1)) /\
    updateRecord (id r1) "Eve" "NY" None "bob" "2024-01-02 00:00:00" st1
      = (st2, Throw (Unauthorized "alice" "bob")) /\
    getRecord (id r1) st2 = (st2, Ok (Some r1)).
Proof.
  apply create_then_foreign_update. discriminate.
Defined.

End StoreMore.

Section StoreQueries.
Import Db.

#[local] Instance newer_first_total : Total newer_first.
Proof. intros a b. unfold newer_first. destruct (total String.le (created_at a) (created_at b)); auto. Qed.

#[local] Instance newer_first_trans : Transitive newer_first.
Proof. intros a b c Hab Hbc. unfold newer_first in *. by etrans. Qed.

Lemma elem_of_rows (r : row) (s : store) :
  r ∈ rows s <-> users s !! id r = Some (columns r).
Proof.
  unfold rows. rewrite list_elem_of_fmap. split.
  - intros ([k f] & -> & H). cbn. by apply elem_of_map_to_list.
  - intros H. exists (id r, columns r). split; [by destruct r|].
    by apply elem_of_map_to_list.
Qed.

Lemma rows_ids (s : store) : id <$> rows s = (map_to_list (users s)).*1.
Proof. unfold rows. rewrite <- list_fmap_compose. by apply list_fmap_ext. Qed.

Lemma getAllRecords_eq (s : store) :
  getAllRecords s = (connect s, Ok (merge_sort newer_first (rows s))).
Proof.
  unfold getAllRecords. rewrite (bind_eq _ _ _ _ _ (initDatabase_eq s)).
  unfold select_all, rows. by rewrite users_connect.
Qed.

Lemma getRecordByUsername_eq (u : string) (s : store) :
  getRecordByUsername u s =
    (connect s,
     Ok (head (merge_sort newer_first
                 (filter (fun r : row => github_username r = u) (rows s))))).
Proof.
  unfold getRecordByUsername. rewrite (bind_eq _ _ _ _ _ (initDatabase_eq s)).
  unfold select_latest_by_username, rows. by rewrite users_connect.
Qed.

(** X6. [getAllRecords] returns every record of the table exactly once,
    each row before all rows with an older [created_at], and leaves the
    table as it is. *)
Theorem getAllRecords_lists_table (s : store) :
  exists l,
    getAllRecords s = (connect s, Ok l) /\
    users (connect s) = users s /\
    (forall r, r ∈ l <-> users s !! id r = Some (columns r)) /\
    NoDup (id <$> l) /\
    length l = size (users s) /\
    StronglySorted newer_first l.
Proof.
  eexists. split; [apply getAllRecords_eq|].
  split; [apply users_connect|].
  pose proof (merge_sort_Permutation newer_first (rows s)) as Hp.
  split; [|split; [|split]].
  - intros r. by rewrite Hp, elem_of_rows.
  - rewrite Hp, rows_ids. apply NoDup_fst_map_to_list.
  - rewrite Hp. unfold rows. by rewrite length_fmap, length_map_to_list.
  - apply StronglySorted_merge_sort; apply _.
Qed.

(** X7. [getRecordByUsername] returns [null] exactly when the table has no
    record of that user; otherwise it returns a record of the table that
    belongs to the user and whose [created_at] is not older than that of
    any other record of the user. *)
Theorem getRecordByUsername_latest (u : string) (s : store) :
  exists o,
    getRecordByUsername u s = (connect s, Ok o) /\
    (o = None <-> forall j f, users s !! j = Some f -> github_username f <> u) /\
    (forall r, o = Some r ->
       users s !! id r = Some (columns r) /\ github_username r = u /\
       forall j f, users s !! j = Some f -> github_username f = u ->
                   String.le (created_at f) (created_at r)).
Proof.
  eexists. split; [apply getRecordByUsername_eq|].
  set (mine := filter (fun r : row => github_username r = u) (rows s)).
  pose proof (merge_sort_Permutation newer_first mine) as Hp.
  assert (Hs : StronglySorted newer_first (merge_sort newer_first mine))
    by (apply StronglySorted_merge_sort; apply _).
  assert (Hin : forall r, r ∈ merge_sort newer_first mine <->
                  users s !! id r = Some (columns r) /\ github_username r = u).
  { intros r. rewrite Hp. unfold mine. rewrite list_elem_of_filter, elem_of_rows. tauto. }
  destruct (merge_sort newer_first mine) as [|r l] eqn:E; cbn.
  - split.
    + split; [|done]. intros _ j f Hj Hu.
      assert (H : {| id := j; columns := f |} ∈ @nil row) by (by apply Hin).
      by apply elem_of_nil in H.
    + by intros r.
  - split.
    + split; [done|]. intros H. exfalso.
      destruct (proj1 (Hin r) ltac:(left)) as [Hr Hu]. by apply (H _ _ Hr).
    + intros r' [= <-]. destruct (proj1 (Hin r) ltac:(left)) as [Hr Hu].
      split; [done|]. split; [done|]. intros j f Hj Hf.
      assert (H : {| id := j; columns := f |} ∈ r :: l) by (by apply Hin).
      apply elem_of_cons in H as [<-|H]; [done|].
      apply StronglySorted_inv in Hs as [_ Hall].
      rewrite Forall_forall in Hall. apply (Hall _ H).
Qed.

End StoreQueries.

(** * Further properties of the parser *)

Section ValidatorMore.

Lemma blank_iff s : blank s = true <-> all is_space s = true.
Proof.
  unfold blank. rewrite orb_true_iff, negb_true_iff, truthy_false, String.eqb_eq,
    trim_empty.
  split; [|tauto]. intros [->|H]; done.
Qed.

Lemma blank_false_iff s : blank s = false <-> not_blank s.
Proof.
  unfold not_blank. pose proof (blank_iff s).
  destruct (blank s), (all is_space s); intuition congruence.
Qed.

Lemma kind_eqb_eq a b : kind_eqb a b = true <-> a = b.
Proof. destruct a, b; cbn; intuition congruence. Qed.

Lemma recordId_present_iff (r : option number) :
  recordId_missing r = false <-> exists z, r = Some (Num z) /\ z <> 0.
Proof.
  destruct r as [[|z]|]; cbn.
  - split; [done|]. by intros (z & [= ] & _).
  - destruct (Z.eqb_spec z 0) as [->|Hz]; cbn.
    + split; [done|]. by intros (z & [= <-] & Hz).
    + split; [|done]. intros _. by exists z.
  - split; [done|]. by intros (z & [= ] & _).
Qed.

Lemma isValid_iff (r : NormalizedRecord) (expected : kind) :
  isValid (validateIssueData r expected) = true <->
  type r = expected /\ not_blank (name r) /\ not_blank (state r) /\
  (expected = update -> exists z, recordId r = Some (Num z) /\ z <> 0).
Proof.
  rewrite <- !blank_false_iff, <- recordId_present_iff, <- kind_eqb_eq.
  unfold validateIssueData, push_if. cbn.
  destruct (kind_eqb (type r) expected), (blank (name r)), (blank (state r)),
    expected, (recordId_missing (recordId r)); cbn;
    intuition congruence.
Qed.

(** X8. [validateIssueData] finds a record valid exactly when its kind is
    the expected one, its name and its state are not white space only, and,
    for an expected UPDATE, its recordId is an integer other than 0; and
    valid means that the list of errors is empty. *)
Theorem validation_valid_iff (r : NormalizedRecord) (expected : kind) :
  (isValid (validateIssueData r expected) = true <->
   type r = expected /\ not_blank (name r) /\ not_blank (state r) /\
   (expected = update -> exists z, recordId r = Some (Num z) /\ z <> 0)) /\
  (isValid (validateIssueData r expected) = true <->
   errors (validateIssueData r expected) = []).
Proof.
  split; [apply isValid_iff|].
  unfold validateIssueData, push_if. cbn.
  destruct (kind_eqb (type r) expected), (blank (name r)), (blank (state r)),
    expected, (recordId_missing (recordId r)); cbn;
    intuition congruence.
Qed.

(** X9. The errors of [validateIssueData], one by one: the type mismatch is
    reported exactly when the kind differs from the expected one, the
    missing name and state exactly when the field is white space only, the
    missing record id exactly when UPDATE is expected and the recordId is
    null, NaN or 0; no error is reported twice. *)
Theorem validation_errors_iff (r : NormalizedRecord) (expected : kind) :
  let errs := errors (validateIssueData r expected) in
  (forall a b, In (TypeMismatch a b) errs <->
     a = expected /\ b = type r /\ type r <> expected) /\
  (In MissingName errs <-> all is_space (name r) = true) /\
  (In MissingState errs <-> all is_space (state r) = true) /\
  (In MissingRecordId errs <->
     expected = update /\
     (recordId r = None \/ recordId r = Some NaN \/ recordId r = Some (Num 0))) /\
  NoDup errs.
Proof.
  cbn zeta. rewrite <- !blank_iff, <- recordId_missing_iff.
  assert (Hk : type r <> expected <-> kind_eqb (type r) expected = false).
  { pose proof (kind_eqb_eq (type r) expected).
    destruct (kind_eqb (type r) expected); intuition congruence. }
  unfold validateIssueData, push_if. cbn.
  split.
  { intros a b. rewrite Hk.
    destruct (kind_eqb (type r) expected), (blank (name r)), (blank (state r)),
      expected, (recordId_missing (recordId r)); cbn;
      intuition congruence. }
  split; [|split; [|split]].
  1-3: destruct (kind_eqb (type r) expected), (blank (name r)), (blank (state r)),
      expected, (recordId_missing (recordId r)); cbn;
      intuition congruence.
  destruct (kind_eqb (type r) expected), (blank (name r)), (blank (state r)),
    expected, (recordId_missing (recordId r)); cbn;
    repeat constructor; rewrite ?elem_of_cons, ?elem_of_nil; intuition congruence.
Qed.

End ValidatorMore.

Section ParserMore.

(** A record that [normalizeParsedData] returns has the raw name, state and
    options (the empty text for an absent key) and never a NaN recordId. *)
Lemma normalized_fields (data : RawFieldMap) (r : NormalizedRecord) :
  normalizeParsedData data = Ok r ->
  name r = default "" (data !! "name") /\
  state r = default "" (data !! "state") /\
  options r = default "" (data !! "options") /\
  (recordId r = None \/ exists v z, identifier_value data v /\
                                    parseInt10 v = Num z /\ recordId r = Some (Num z)).
Proof.
  rewrite normalizeParsedData_eq.
  assert (Hd : forall o : option string, or_empty o = default "" o) by by intros [|].
  destruct (identifier data) as [v|] eqn:E.
  - destruct (truthy v) eqn:Et.
    + destruct (parseInt10 v) as [|z] eqn:Ep; [done|]. intros [= <-]. cbn.
      rewrite !Hd. repeat split; try done. right. exists v, z.
      split; [|done]. by apply identifier_value_iff.
    + intros [= <-]. cbn. rewrite !Hd. tauto.
  - intros [= <-]. cbn. rewrite !Hd. tauto.
Qed.

(** X10. The two inferences of the kind together: a raw map passes
    normalisation and the validation against UPDATE exactly when its name
    and state are not white space only and its identifier value reads, with
    [parseInt], as an integer other than 0; it passes against CREATE
    exactly when name and state are not white space only and no identifier
    key holds a non-empty value. *)
Theorem raw_map_accepted_iff (data : RawFieldMap) :
  ((exists r, normalizeParsedData data = Ok r /\
              isValid (validateIssueData r update) = true) <->
   not_blank (default "" (data !! "name")) /\
   not_blank (default "" (data !! "state")) /\
   exists v z, identifier_value data v /\ parseInt10 v = Num z /\ z <> 0) /\
  ((exists r, normalizeParsedData data = Ok r /\
              isValid (validateIssueData r create) = true) <->
   not_blank (default "" (data !! "name")) /\
   not_blank (default "" (data !! "state")) /\
   ~ nonempty_identifier data).
Proof.
  split.
  - split.
    + intros (r & Hn & Hv).
      apply isValid_iff in Hv as (Ht & Hna & Hst & Hid).
      destruct (normalized_fields _ _ Hn) as (<- & <- & _ & Hr).
      split; [done|]. split; [done|].
      destruct (Hid eq_refl) as (z & Hz & Hz0).
      destruct Hr as [Hr|(v & z' & Hi & Hp & Hr)]; [congruence|].
      exists v, z'. split; [done|]. split; [done|]. congruence.
    + intros (Hna & Hst & v & z & Hi & Hp & Hz).
      apply identifier_value_iff in Hi as [Hi Ht].
      eexists. split.
      * rewrite normalizeParsedData_eq, Hi, Ht, Hp. reflexivity.
      * apply isValid_iff. cbn.
        assert (Hd : forall o : option string, or_empty o = default "" o)
          by by intros [|].
        rewrite !Hd. repeat split; try done. intros _. by exists z.
  - split.
    + intros (r & Hn & Hv).
      apply isValid_iff in Hv as (Ht & Hna & Hst & _).
      destruct (normalized_fields _ _ Hn) as (<- & <- & _ & _).
      split; [done|]. split; [done|].
      rewrite nonempty_identifier_iff. revert Hn Ht.
      rewrite normalizeParsedData_eq. unfold truthy_prop.
      destruct (identifier data) as [v|]; [|done].
      destruct (truthy v); [|done].
      destruct (parseInt10 v); [done|]. by intros [= <-].
    + intros (Hna & Hst & Hid).
      rewrite nonempty_identifier_iff in Hid.
      eexists. split.
      * rewrite normalizeParsedData_eq.
        instantiate (1 := {| type := create; name := or_empty (data !! "name");
                             state := or_empty (data !! "state");
                             options := or_empty (data !! "options");
                             recordId := None |}).
        unfold truthy_prop in Hid. destruct (identifier data) as [v|]; [|done].
        by destruct (truthy v).
      * apply isValid_iff. cbn.
        assert (Hd : forall o : option string, or_empty o = default "" o)
          by by intros [|].
        rewrite !Hd. repeat split; done.
Qed.

Lemma normalize_throws (data : RawFieldMap) (e : error) :
  normalizeParsedData data = Throw e ->
  exists v, e = InvalidRecordId v /\ identifier_value data v /\ parseInt10 v = NaN.
Proof.
  rewrite normalizeParsedData_eq.
  destruct (identifier data) as [v|] eqn:E; [|done].
  destruct (truthy v) eqn:Et; [|done].
  destruct (parseInt10 v) eqn:Ep; [|done]. intros [= <-].
  exists v. split; [done|]. split; [|done]. by apply identifier_value_iff.
Qed.

(** X11. What [parseIssueBody] throws: 'Issue body is empty or invalid'
    exactly for an absent or empty body; 'Invalid YAML frontmatter format'
    only for a body whose trimmed text begins with [---]; otherwise only
    'Invalid record ID' for an identifier value that does not begin, after
    white space and a sign, with a digit. *)
Theorem parseIssueBody_throws (body : option string) :
  (parseIssueBody body = Throw EmptyInput <-> body = None \/ body = Some "") /\
  (forall e, parseIssueBody body = Throw e ->
     e = EmptyInput \/
     (e = MalformedFrontmatter /\
      exists b, body = Some b /\ startsWith (trim b) "---" = true) \/
     (exists v, e = InvalidRecordId v /\ v <> "" /\ ~ starts_with_integer v)).
Proof.
  assert (Hn : forall data e, normalizeParsedData data = Throw e ->
                 exists v, e = InvalidRecordId v /\ v <> "" /\ ~ starts_with_integer v).
  { intros data e H. apply normalize_throws in H as (v & -> & [Hv _] & Hp).
    exists v. split; [done|]. split; [done|]. by apply parseInt10_NaN. }
  assert (Hy : forall t e, parseYAMLFrontmatter t = Throw e ->
                 e = MalformedFrontmatter \/
                 exists v, e = InvalidRecordId v /\ v <> "" /\ ~ starts_with_integer v).
  { intros t e. unfold parseYAMLFrontmatter, extractYAMLFrontmatter.
    destruct (re_match frontmatter_re t) as [[|c caps]|].
    - intros [= <-]. by left.
    - intros H. right. by apply Hn in H.
    - intros [= <-]. by left. }
  unfold parseIssueBody. destruct body as [b|]; [|split; [tauto|intros e [= <-]; tauto]].
  destruct (truthy b) eqn:Et; cbn.
  - apply truthy_true in Et.
    destruct (startsWith (trim b) "---") eqn:Es.
    + split.
      * split; [|intros [H|[= H]]; done].
        intros H. apply Hy in H as [H|(v & H & _)]; done.
      * intros e H. apply Hy in H as [->|H]; [|tauto].
        right. left. split; [done|]. by exists b.
    + split.
      * split; [|intros [H|[= H]]; done].
        intros H. apply Hn in H as (v & H & _). done.
      * intros e H. apply Hn in H. tauto.
  - apply truthy_false in Et as ->. split; [tauto|]. intros e [= <-]. tauto.
Qed.

(** X12. A body that is not empty but white space only is not refused as
    empty: it is read by the section strategy, which finds nothing, and
    the result is a CREATE record with empty name, state and options, which
    the validation against CREATE rejects for its name and its state. *)
Theorem blank_body_is_empty_create (b : string) :
  b <> "" -> all is_space b = true ->
  parseIssueBody (Some b)
    = Ok {| type := create; name := ""; state := ""; options := "";
            recordId := None |} /\
  validateIssueData {| type := create; name := ""; state := ""; options := "";
                       recordId := None |} create
    = {| isValid := false; errors := [MissingName; MissingState] |}.
Proof.
  intros Hne Hb. split; [|reflexivity].
  unfold parseIssueBody. apply truthy_true in Hne. rewrite Hne. cbn.
  apply trim_empty in Hb. rewrite Hb. vm_compute. reflexivity.
Qed.

Lemma blank_body_is_empty_create_witness :
  parseIssueBody (Some (text ["  "; " "]))
    = Ok {| type := create; name := ""; state := ""; options := "";
            recordId := None |}.
Proof.
  apply (blank_body_is_empty_create (text ["  "; " "])); [discriminate|reflexivity].
Defined.

End ParserMore.

Section FrontmatterLines.

Lemma dropWhile_all_app p w s : all p w = true -> dropWhile p (w +:+ s) = dropWhile p s.
Proof.
  intros Hw. induction w as [|c w IH]; [done|].
  cbn in Hw. apply andb_true_iff in Hw as [Hc Hw]. rewrite app_cons. cbn.
  rewrite Hc. by apply IH.
Qed.

(** White space in front of a text does not change its trimmed form. *)
Lemma trim_app_space w s : all is_space w = true -> trim (w +:+ s) = trim s.
Proof. intros Hw. unfold trim, trimStart. by rewrite dropWhile_all_app. Qed.

Lemma trimEnd_no_space s : all (fun c => negb (is_space c)) s = true -> trimEnd s = s.
Proof.
  induction s as [|c s IH]; cbn; [done|].
  intros H. apply andb_true_iff in H as [Hc Hs]. rewrite (IH Hs).
  destruct s; [|done]. by apply negb_true_iff in Hc as ->.
Qed.

Lemma trim_no_space s : all (fun c => negb (is_space c)) s = true -> trim s = s.
Proof.
  intros H. unfold trim, trimStart.
  assert (dropWhile is_space s = s) as ->.
  { destruct s as [|c s]; [done|]. cbn in *.
    apply andb_true_iff in H as [Hc _]. by apply negb_true_iff in Hc as ->. }
  by apply trimEnd_no_space.
Qed.

Lemma word_not_space c : is_word c = true -> is_space c = false.
Proof.
  unfold is_word, is_digit, is_space, between. intros H.
  repeat match goal with
         | |- context [(?a <=? ?b)%N] => destruct (N.leb_spec a b)
         | |- context [(?a =? ?b)%N] => destruct (N.eqb_spec a b)
         | H : context [(?a <=? ?b)%N] |- _ => destruct (N.leb_spec a b)
         | H : context [(?a =? ?b)%N] |- _ => destruct (N.eqb_spec a b)
         end; cbn in *; try done; lia.
Qed.

Lemma all_impl (p q : ascii -> bool) s :
  (forall c, p c = true -> q c = true) -> all p s = true -> all q s = true.
Proof.
  intros Hpq. induction s as [|c s IH]; cbn; [done|].
  intros H. apply andb_true_iff in H as [Hc Hs]. by rewrite (Hpq c Hc), IH.
Qed.

Lemma trim_word k : all is_word k = true -> trim k = k.
Proof.
  intros H. apply trim_no_space. revert H. apply all_impl.
  intros c Hc. by rewrite (word_not_space c Hc).
Qed.

(** The key of a line is determined: the colon is no word character. *)
Lemma key_unique k1 r1 k2 r2 :
  all is_word k1 = true -> all is_word k2 = true ->
  k1 +:+ String ":" r1 = k2 +:+ String ":" r2 -> k1 = k2 /\ r1 = r2.
Proof.
  revert k2. induction k1 as [|c k1 IH]; intros [|d k2] H1 H2;
    rewrite ?app_nil_l, ?app_cons.
  - by intros [= ->].
  - intros [= <- _]. cbn in H2. done.
  - intros [= -> _]. cbn in H1. done.
  - intros [= -> H]. cbn in H1, H2.
    apply andb_true_iff in H1 as [_ H1]. apply andb_true_iff in H2 as [_ H2].
    destruct (IH _ H1 H2 H) as [-> ->]. done.
Qed.

(** What a match of the key-value pattern consists of. *)
Lemma keyvalue_match line caps :
  re_match keyvalue_re line = Some caps ->
  exists key ws value,
    line = key +:+ ":" +:+ ws +:+ value /\
    key <> "" /\ all is_word key = true /\ all is_space ws = true /\
    value <> "" /\ all is_dot value = true /\ caps = [key; value].
Proof.
  unfold re_match. intros H.
  apply search_sound in H as (pre & t & s' & -> & Hm).
  cbn [matches Seq keyvalue_re source ignoreCase Plus] in Hm.
  destruct Hm as (s1 & c1 & (-> & -> & Hlen) & s2 & c2 & Hkey & s3 & c3 & Hcolon
                  & s4 & c4 & Hws & s5 & c5 & Hval & Hend).
  symmetry in Hlen. apply app_same_length in Hlen as ->. rewrite app_nil_l.
  destruct Hkey as (c1' & (sk & ck & (x & -> & Hx & ->) & (wk & -> & Hwk & ->)) & ->).
  destruct Hcolon as (y & -> & Hy & ->). apply Ascii.eqb_eq in Hy as <-.
  destruct Hws as (ws & -> & Hws & ->).
  destruct Hval as (c5' & (sv & cv & (z & -> & Hz & ->) & (wv & -> & Hwv & ->)) & ->).
  destruct Hend as (-> & _ & ->).
  exists (String x wk), ws, (String z wv).
  rewrite app_nil_r.
  change (String x (wk +:+ String ":" (ws +:+ String z wv)))
    with (String x wk +:+ String ":" (ws +:+ String z wv)).
  rewrite consumed_app.
  assert (consumed (String z wv) "" = String z wv) as ->.
  { rewrite <- (app_nil_r (String z wv)) at 1. apply consumed_app. }
  cbn. rewrite Hx, Hz, Hwk, Hwv. repeat split; done.
Qed.

Lemma yaml_line_sets (data : RawFieldMap) (line key rest : string) :
  key_value_line line key rest ->
  yaml_line data line = <[key := unquote (trim rest)]> data.
Proof.
  unfold yaml_line.
  intros (-> & Hk & Hkw & ws & v & -> & Hws & Hv & Hvd).
  assert (is_Some (re_match keyvalue_re (key +:+ ":" +:+ ws +:+ v))) as [caps Hc].
  { unfold re_match. destruct key as [|x wk]; [done|]. destruct v as [|z wv]; [done|].
    cbn in Hkw, Hvd.
    apply andb_true_iff in Hkw as [Hx Hwk]. apply andb_true_iff in Hvd as [Hz Hwv].
    eapply (search_complete false _ _ _ "" [String x wk; String z wv]).
    cbn [matches Seq keyvalue_re source ignoreCase Plus chr_eq].
    eexists _, []. split; [done|].
    eexists (":" +:+ ws +:+ String z wv), [String x wk]. split.
    { exists []. split.
      - eexists (wk +:+ ":" +:+ ws +:+ String z wv), []. split; [by exists x|].
        by exists wk.
      - change (String x wk +:+ ":" +:+ ws +:+ String z wv)
          with (String x wk +:+ (":" +:+ ws +:+ String z wv)).
        by rewrite consumed_app. }
    eexists (ws +:+ String z wv), [String x wk]. split; [by exists ":"%char|].
    eexists (String z wv), [String x wk]. split; [by exists ws|].
    eexists "", [String x wk; String z wv]. split; [|done].
    exists [String x wk]. split.
    - eexists wv, _. split; [by exists z|]. exists wv. by rewrite app_nil_r.
    - assert (consumed (String z wv) "" = String z wv) as ->; [|done].
      rewrite <- (app_nil_r (String z wv)) at 1. apply consumed_app. }
  rewrite Hc.
  apply keyvalue_match in Hc as (k' & ws' & v' & Heq & _ & Hk' & Hws' & _ & _ & ->).
  apply key_unique in Heq as [<- Heq]; [|done..].
  rewrite trim_word by done.
  by rewrite Heq, (trim_app_space ws' v').
Qed.

Lemma yaml_line_ignores (data : RawFieldMap) (line : string) :
  (forall key rest, ~ key_value_line line key rest) -> yaml_line data line = data.
Proof.
  unfold yaml_line.
  intros Hno. destruct (re_match keyvalue_re line) as [caps|] eqn:E; [|done].
  apply keyvalue_match in E as (k & ws & v & -> & Hk & Hkw & Hws & Hv & Hvd & ->).
  destruct (Hno k (ws +:+ v)). repeat split; try done. by exists ws, v.
Qed.

(** X13. One line of a frontmatter block: a line made of a key of word
    characters, a colon, optional white space and a non-empty value without
    line terminator sets the key to what follows the colon, trimmed and
    without its surrounding quotes; every other line leaves the fields as
    they are.  (The key [__proto__], whose assignment JavaScript does not
    store as a property of the object, is left aside.) *)
Theorem yaml_line_reads (data : RawFieldMap) (line : string) :
  (forall key rest, key <> "__proto__" -> key_value_line line key rest ->
     yaml_line data line = <[key := unquote (trim rest)]> data) /\
  ((forall key rest, ~ key_value_line line key rest) ->
     yaml_line data line = data).
Proof.
  split; [intros key rest _; apply yaml_line_sets|apply yaml_line_ignores].
Qed.

Lemma yaml_line_reads_witness :
  yaml_line ∅ "state:  'New York' " = {[ "state" := "New York" ]}.
Proof.
  apply (proj1 (yaml_line_reads ∅ "state:  'New York' ") "state" "  'New York' ");
    [discriminate|].
  split; [reflexivity|]. split; [discriminate|]. split; [reflexivity|].
  exists "  ", "'New York' ". split; [reflexivity|]. split; [reflexivity|].
  split; [discriminate|reflexivity].
Defined.

Lemma trimEnd_snoc u c : is_space c = false -> trimEnd (u +:+ String c "") = u +:+ String c "".
Proof.
  intros Hc. induction u as [|d u IH]; cbn.
  - rewrite app_nil_l. cbn. by rewrite Hc.
  - rewrite app_cons. cbn. rewrite IH. by destruct u.
Qed.

Lemma substring_last u c : substring (String.length u) 1 (u +:+ String c "") = String c "".
Proof. induction u as [|d u IH]; [done|]. by rewrite app_cons. Qed.

Lemma length_snoc u c : String.length (u +:+ String c "") = S (String.length u).
Proof. rewrite length_app. cbn. lia. Qed.

(** A value between two quotation marks of the same kind is read as what
    stands between them. *)
Lemma unquote_quoted (q : ascii) (v : string) :
  q = "'"%char \/ q = "034"%char ->
  trim (String q (v +:+ String q "")) = String q (v +:+ String q "") /\
  unquote (String q (v +:+ String q "")) = v.
Proof.
  intros Hq.
  assert (Hs : is_space q = false) by (by destruct Hq as [-> | ->]).
  split.
  - unfold trim, trimStart. cbn. rewrite Hs.
    change (String q (v +:+ String q "")) with (String q v +:+ String q "").
    by apply trimEnd_snoc.
  - assert (Hlen : String.length (String q (v +:+ String q ""))
                   = S (S (String.length v))).
    { cbn [String.length]. by rewrite length_snoc. }
    assert (He : endsWith (String q (v +:+ String q "")) (String q "") = true).
    { unfold endsWith. rewrite Hlen. cbn [String.length].
      replace (S (S (String.length v)) - 1)%nat with (S (String.length v)) by lia.
      change (substring (S (String.length v)) 1 (String q (v +:+ String q "")))
        with (substring (String.length v) 1 (v +:+ String q "")).
      by rewrite substring_last, String.eqb_refl. }
    assert (Hslice : slice_1_m1 (String q (v +:+ String q "")) = v).
    { unfold slice_1_m1. rewrite Hlen.
      replace (S (S (String.length v)) - 2)%nat with (String.length v) by lia.
      change (substring 1 (String.length v) (String q (v +:+ String q "")))
        with (substring 0 (String.length v) (v +:+ String q "")).
      apply substring_0_app. }
    assert (Hst : startsWith (String q (v +:+ String q "")) (String q "") = true).
    { apply startsWith_iff. by eexists. }
    unfold unquote. destruct Hq as [-> | ->].
    + change squote with (String "'"%char "").
      rewrite Hst, He. cbn [andb]. rewrite orb_true_r. exact Hslice.
    + change dquote with (String "034"%char "").
      rewrite Hst, He. cbn [andb orb]. exact Hslice.
Qed.

(** X14. A frontmatter line whose value stands between two single or two
    double quotation marks sets the key to exactly the text between them,
    with the white space at its ends, whatever follows the colon as white
    space. *)
Theorem yaml_line_quoted (data : RawFieldMap) (key ws v : string) (q : ascii) :
  key <> "" -> key <> "__proto__" -> all is_word key = true ->
  all is_space ws = true -> all is_dot v = true ->
  q = "'"%char \/ q = "034"%char ->
  yaml_line data (key +:+ ":" +:+ ws +:+ String q (v +:+ String q ""))
    = <[key := v]> data.
Proof.
  intros Hk _ Hkw Hws Hv Hq.
  rewrite (yaml_line_sets data _ key (ws +:+ String q (v +:+ String q ""))).
  - rewrite trim_app_space by done.
    destruct (unquote_quoted q v Hq) as [-> ->]. done.
  - split; [done|]. split; [done|]. split; [done|].
    exists ws, (String q (v +:+ String q "")). split; [done|]. split; [done|].
    split; [done|]. cbn.
    assert (Hd : is_dot q = true) by (by destruct Hq as [-> | ->]).
    rewrite Hd. cbn. clear -Hv Hd. induction v as [|c v IH]; cbn.
    + rewrite app_nil_l. cbn. by rewrite Hd.
    + cbn in Hv. apply andb_true_iff in Hv as [Hc Hv]. rewrite app_cons. cbn.
      by rewrite Hc, IH.
Qed.

Lemma yaml_line_quoted_witness :
  yaml_line ∅ (text ["name: ' Bob  '"]) = {[ "name" := " Bob  " ]}.
Proof.
  apply (yaml_line_quoted ∅ "name" " " " Bob  " "'"%char);
    try reflexivity; [discriminate|discriminate|by left].
Defined.

(** The fields that the loop over the lines of a block builds. *)
Lemma foldl_yaml_line_snoc (data : RawFieldMap) lines line :
  foldl yaml_line data (lines ++ [line])%list = yaml_line (foldl yaml_line data lines) line.
Proof. by rewrite foldl_app. Qed.

Lemma key_value_line_key line k1 r1 k2 r2 :
  key_value_line line k1 r1 -> key_value_line line k2 r2 -> k1 = k2 /\ r1 = r2.
Proof.
  intros (-> & _ & H1 & _) (Heq & _ & H2 & _).
  by apply key_unique in Heq.
Qed.

Lemma key_value_line_dec line :
  (exists key rest, key_value_line line key rest) \/
  (forall key rest, ~ key_value_line line key rest).
Proof.
  destruct (re_match keyvalue_re line) as [caps|] eqn:E.
  - left. apply keyvalue_match in E as (k & ws & v & -> & Hk & Hkw & Hws & Hv & Hvd & _).
    exists k, (ws +:+ v). repeat split; try done. by exists ws, v.
  - right. intros key rest H.
    pose proof (yaml_line_sets ∅ line key rest H) as Hs.
    unfold yaml_line in Hs. rewrite E in Hs.
    assert (Hl : (∅ : RawFieldMap) !! key = Some (unquote (trim rest)))
      by (by rewrite Hs, lookup_insert_eq).
    by rewrite lookup_empty in Hl.
Qed.

(** X15. The fields of a block, line by line: a key holds the value [v]
    exactly when some line sets the key to [v] and no later line sets the
    same key; so the last occurrence of a key wins and lines that are not
    of the form [key: value] count for nothing.  (For every key but
    [__proto__].) *)
Theorem block_fields_last_wins (lines : list string) (k v : string) :
  k <> "__proto__" ->
  foldl yaml_line ∅ lines !! k = Some v <->
  exists before line after rest,
    lines = (before ++ line :: after)%list /\
    key_value_line line k rest /\ v = unquote (trim rest) /\
    forall l r, In l after -> ~ key_value_line l k r.
Proof.
  intros _. induction lines as [|x lines IH] using rev_ind.
  - cbn. rewrite lookup_empty. split; [done|].
    intros (before & line & after & rest & H & _). by destruct before.
  - rewrite foldl_yaml_line_snoc.
    assert (Hother : (forall r, ~ key_value_line x k r) ->
              yaml_line (foldl yaml_line ∅ lines) x !! k
                = foldl yaml_line ∅ lines !! k).
    { intros Hx. destruct (key_value_line_dec x) as [(k' & r' & Hk')|Hno].
      - rewrite (yaml_line_sets _ _ _ _ Hk'). apply lookup_insert_ne.
        intros ->. by apply (Hx r').
      - by rewrite yaml_line_ignores. }
    destruct (key_value_line_dec x) as [(k' & r' & Hk')|Hno].
    + destruct (decide (k' = k)) as [->|Hne].
      * rewrite (yaml_line_sets _ _ _ _ Hk'), lookup_insert_eq. split.
        -- intros [= <-]. exists lines, x, [], r'. split_and!; try done.
        -- intros (before & line & after & rest & Heq & Hl & -> & Hafter).
           destruct after as [|a after _] using rev_ind.
           ++ apply app_inj_tail in Heq as [_ <-].
              by destruct (key_value_line_key _ _ _ _ _ Hk' Hl) as [_ ->].
           ++ rewrite app_comm_cons, List.app_assoc in Heq.
              apply app_inj_tail in Heq as [_ <-].
              destruct (Hafter x r'); [|done]. apply in_or_app. right. by left.
      * rewrite Hother.
        2:{ intros r Hr. by destruct (key_value_line_key _ _ _ _ _ Hk' Hr). }
        rewrite IH. split.
        -- intros (before & line & after & rest & -> & Hl & -> & Hafter).
           exists before, line, (after ++ [x])%list, rest.
           rewrite <- List.app_assoc. split_and!; try done.
           intros l r [Hin| [<-|[]]]%in_app_or; [by apply Hafter|].
           intros Hr. by destruct (key_value_line_key _ _ _ _ _ Hk' Hr).
        -- intros (before & line & after & rest & Heq & Hl & -> & Hafter).
           destruct after as [|a after _] using rev_ind.
           ++ apply app_inj_tail in Heq as [_ <-].
              by destruct (key_value_line_key _ _ _ _ _ Hk' Hl).
           ++ rewrite app_comm_cons, List.app_assoc in Heq.
              apply app_inj_tail in Heq as [-> <-].
              exists before, line, after, rest. split_and!; try done.
              intros l r Hin. apply Hafter. apply in_or_app. by left.
    + rewrite Hother by apply Hno. rewrite IH. split.
      * intros (before & line & after & rest & -> & Hl & -> & Hafter).
        exists before, line, (after ++ [x])%list, rest.
        rewrite <- List.app_assoc. split_and!; try done.
        intros l r [Hin| [<-|[]]]%in_app_or; [by apply Hafter|apply Hno].
      * intros (before & line & after & rest & Heq & Hl & -> & Hafter).
        destruct after as [|a after _] using rev_ind.
        -- apply app_inj_tail in Heq as [_ <-]. by destruct (Hno k rest).
        -- rewrite app_comm_cons, List.app_assoc in Heq.
           apply app_inj_tail in Heq as [-> <-].
           exists before, line, after, rest. split_and!; try done.
           intros l r Hin. apply Hafter. apply in_or_app. by left.
Qed.

Lemma block_fields_last_wins_witness :
  foldl yaml_line ∅ ["name: Bob"; "state: TX"; "no field"; "name: 'Rob'"] !! "name"
    = Some "Rob".
Proof.
  apply (block_fields_last_wins
           ["name: Bob"; "state: TX"; "no field"; "name: 'Rob'"] "name" "Rob");
    [discriminate|].
  exists ["name: Bob"; "state: TX"; "no field"], "name: 'Rob'", [], " 'Rob'".
  split; [reflexivity|]. split.
  - split; [reflexivity|]. split; [discriminate|]. split; [reflexivity|].
    exists " ", "'Rob'". split; [reflexivity|]. split; [reflexivity|].
    split; [discriminate|reflexivity].
  - split; [reflexivity|]. intros l r [].
Defined.

End FrontmatterLines.

(** * Properties of the processing of an issue *)

Section Processing.
Import Db ProcessIssue.

Lemma closeDatabase_eq s :
  users (fst (closeDatabase s)) = users s /\
  sqlite_sequence (fst (closeDatabase s)) = sqlite_sequence s /\
  db (fst (closeDatabase s)) = false.
Proof. done. Qed.

Lemma create_branch_eq i p now s :
  let rowid := Z.max (sqlite_sequence s) (max_rowid (users s)) + 1 in
  let result := {| id := rowid; columns := written_fields i p now now |} in
  create_branch i p now s
    = (inserted s (written_fields i p now now), Succeeded result (CreatedComment result)).
Proof. cbn zeta. unfold create_branch. by rewrite createRecord_eq. Qed.

Lemma update_branch_eq i p now s :
  update_branch i p now s =
    match recordId p with
    | Some (Num j) =>
        match users s !! j with
        | Some old =>
            if String.eqb (github_username old) (user_login i)
            then
              let result :=
                {| id := j; columns := written_fields i p (created_at old) now |} in
              (updated s j (written_fields i p (created_at old) now),
               Succeeded result (UpdatedComment result))
            else
              (connect s,
               Returned
                 [PostComment (number i)
                    (UpdateErrorComment
                       (Thrown (Unauthorized (github_username old) (user_login i))));
                  SetFailed
                    (UpdateFailedWith
                       (Thrown (Unauthorized (github_username old) (user_login i))))])
        | None =>
            (connect s,
             Returned [PostComment (number i) (NotFoundComment (recordId p));
                       SetFailed (NotFoundFailed (recordId p))])
        end
    | _ =>
        (connect s,
         Returned [PostComment (number i) (NotFoundComment (recordId p));
                   SetFailed (NotFoundFailed (recordId p))])
    end.
Proof.
  unfold update_branch. destruct (recordId p) as [[|j]|] eqn:Er; try done.
  rewrite getRecord_eq. destruct (users s !! j) as [old|] eqn:E; cbn; [|done].
  rewrite updateRecord_eq, users_connect, E.
  destruct (String.eqb_spec (github_username old) (user_login i)) as [Ho|Ho]; cbn.
  - unfold written_fields, updated. rewrite users_connect, sequence_connect.
    by rewrite Ho.
  - by rewrite connect_idem.
Qed.

(** What a run of [processIssue] does to the table: nothing, or the insert
    of one row for the issue, or the rewrite of one row of the author. *)
Lemma processIssue_table env now s :
  let s' := fst (fst (processIssue env now s)) in
  let events := snd (fst (processIssue env now s)) in
  db s' = false /\
  ((users s' = users s /\ sqlite_sequence s' = sqlite_sequence s /\
    forallb (fun e => negb (is_close e)) events = true /\
    existsb is_failure events = true) \/
   (exists i p,
      payload_issue env = Some i /\ parseIssueBody (body i) = Ok p /\
      isValid (validateIssueData p (detectIssueType (title i) (labels i))) = true /\
      forallb (fun e => negb (is_failure e)) events = true /\
      existsb is_close events = true /\
      ((detectIssueType (title i) (labels i) = create /\
        users s' = <[Z.max (sqlite_sequence s) (max_rowid (users s)) + 1
                       := written_fields i p now now]> (users s)) \/
       (detectIssueType (title i) (labels i) = update /\
        exists j old,
          recordId p = Some (Num j) /\ users s !! j = Some old /\
          github_username old = user_login i /\
          sqlite_sequence s' = sqlite_sequence s /\
          users s' = <[j := written_fields i p (created_at old) now]> (users s))))).
Proof.
  cbn zeta. unfold processIssue, try_block.
  change (fst (initDatabase s)) with (connect s).
  destruct (token_missing env); [cbn; split; [done|]; by left|].
  destruct (payload_issue env) as [i|]; [|cbn; split; [done|]; by left].
  destruct (parseIssueBody (body i)) as [p|e] eqn:Ep; [|cbn; split; [done|]; by left].
  destruct (isValid (validateIssueData p _)) eqn:Ev; cbn [negb];
    [|cbn; split; [done|]; by left].
  destruct (detectIssueType (title i) (labels i)) eqn:Ed.
  - rewrite create_branch_eq.
    cbn [fst snd closeDatabase inserted users sqlite_sequence db].
    split; [done|]. right.
    exists i, p. rewrite Ed, users_connect, sequence_connect.
    split_and!; try done. by left.
  - rewrite update_branch_eq. rewrite !users_connect.
    destruct (recordId p) as [[|j]|] eqn:Er.
    1,3: cbn; split; [done|]; left;
         by rewrite connect_idem, users_connect, sequence_connect.
    destruct (users s !! j) as [old|] eqn:Eo.
    2: cbn; split; [done|]; left;
       by rewrite connect_idem, users_connect, sequence_connect.
    destruct (String.eqb_spec (github_username old) (user_login i)) as [Ho|Ho].
    + cbn [fst snd closeDatabase updated users sqlite_sequence db].
      split; [done|]. right. exists i, p.
      rewrite Ed, users_connect, sequence_connect.
      split_and!; try done. right. split; [done|]. by exists j, old.
    + cbn. split; [done|]. left.
      by rewrite connect_idem, users_connect, sequence_connect.
Qed.

Lemma trim_nonempty s : not_blank s -> trim s <> "".
Proof. unfold not_blank. intros H Ht. apply trim_empty in Ht. congruence. Qed.

Lemma options_argument_not_empty o : or_null (options_argument o) <> Some "".
Proof.
  unfold options_argument, or_null. destruct (truthy o); [|done].
  destruct (truthy (trim o)) eqn:E; [|done]. apply truthy_true in E. congruence.
Qed.

(** X16. A run of [processIssue] removes no record and changes neither the
    owner nor the [created_at] of a record; a record that does not belong
    to the author of the issue is left exactly as it was. *)
Theorem processIssue_keeps_records (env : environment) (now : timestamp)
  (s : store) (j : Z) (f : fields) :
  users s !! j = Some f ->
  (exists f', users (fst (fst (processIssue env now s))) !! j = Some f' /\
              github_username f' = github_username f /\
              created_at f' = created_at f) /\
  ((forall i, payload_issue env = Some i -> user_login i <> github_username f) ->
   users (fst (fst (processIssue env now s))) !! j = Some f).
Proof.
  intros Hj.
  destruct (processIssue_table env now s)
    as (_ & [(-> & _)|(i & p & Hi & _ & _ & _ & _ & [(_ & ->)|(_ & k & old & _ & Hk & Ho & _ & ->)])]).
  - split; [by exists f|done].
  - assert (Hne : Z.max (sqlite_sequence s) (max_rowid (users s)) + 1 <> j).
    { intros <-. by rewrite fresh_rowid in Hj. }
    rewrite lookup_insert_ne by done. split; [by exists f|done].
  - destruct (decide (k = j)) as [->|Hne].
    + rewrite lookup_insert_eq. rewrite Hj in Hk. injection Hk as <-. split.
      * by eexists.
      * intros H. by destruct (H i Hi).
    + rewrite lookup_insert_ne by done. split; [by exists f|done].
Qed.

Lemma processIssue_keeps_records_witness :
  users (fst (fst (processIssue (workflow bob_update_issue) "2024-05-05 00:00:00"
                     alice_store))) !! 1
    = Some alice_fields.
Proof.
  apply (proj2 (processIssue_keeps_records (workflow bob_update_issue)
                  "2024-05-05 00:00:00" alice_store 1 alice_fields eq_refl)).
  intros i [= <-]. discriminate.
Defined.

(** X17. Every record that a run of [processIssue] leaves in the table is
    either a record that was there, unchanged, or a record written by this
    run: it belongs to the author of the issue, its [updated_at] is the time
    of the run, its name and state are not empty and its options are not
    the empty text. *)
Theorem processIssue_written_records (env : environment) (now : timestamp)
  (s : store) (j : Z) (f : fields) :
  users (fst (fst (processIssue env now s))) !! j = Some f ->
  users s !! j = Some f \/
  (exists i, payload_issue env = Some i /\
             github_username f = user_login i /\ updated_at f = now /\
             name f <> "" /\ state f <> "" /\ options f <> Some "").
Proof.
  destruct (processIssue_table env now s)
    as (_ & [(-> & _)|(i & p & Hi & _ & Hv & _ & _ & Hw)]); [by left|].
  apply isValid_iff in Hv as (_ & Hn & Hs & _).
  assert (Hf : forall c, let w := written_fields i p c now in
                 github_username w = user_login i /\ updated_at w = now /\
                 name w <> "" /\ state w <> "" /\ options w <> Some "").
  { intros c. cbn. split_and!; try done; auto using trim_nonempty.
    apply options_argument_not_empty. }
  destruct Hw as [(_ & ->)|(_ & k & old & _ & _ & _ & _ & ->)].
  - rewrite lookup_insert. case_decide.
    + intros [= <-]. right. exists i. split; [done|]. apply Hf.
    + by left.
  - rewrite lookup_insert. case_decide.
    + intros [= <-]. right. exists i. split; [done|]. apply Hf.
    + by left.
Qed.

Lemma processIssue_written_records_witness :
  exists j f,
    users (fst (fst (processIssue (workflow bob_create_issue) "2024-05-05 00:00:00"
                       alice_store))) !! j = Some f /\
    users alice_store !! j = None /\
    github_username f = "bob" /\ name f = "Bob".
Proof.
  exists 2, (written_fields bob_create_issue bob_create_parsed
               "2024-05-05 00:00:00" "2024-05-05 00:00:00").
  assert (H : users (fst (fst (processIssue (workflow bob_create_issue)
                                 "2024-05-05 00:00:00" alice_store))) !! 2
              = Some (written_fields bob_create_issue bob_create_parsed
                        "2024-05-05 00:00:00" "2024-05-05 00:00:00"))
    by (vm_compute; reflexivity).
  split; [exact H|]. split; [reflexivity|].
  destruct (processIssue_written_records _ _ _ _ _ H) as [Hold|(i & _ & Hu & _)].
  - discriminate Hold.
  - split; reflexivity.
Defined.

(** X18. How a run of [processIssue] ends.  The database handle is closed.
    Either a failure is reported, and then the issue is not closed and the
    table and the AUTOINCREMENT counter are as before; or the issue is
    closed, no failure is reported and nothing escapes.  Something escapes
    exactly when the token or the issue is missing, and otherwise exactly
    one comment is posted. *)
Theorem processIssue_outcome (env : environment) (now : timestamp) (s : store) :
  let s' := fst (fst (processIssue env now s)) in
  let events := snd (fst (processIssue env now s)) in
  let escaped := snd (processIssue env now s) in
  db s' = false /\
  ((existsb is_failure events = true /\ existsb is_close events = false /\
    users s' = users s /\ sqlite_sequence s' = sqlite_sequence s) \/
   (existsb is_failure events = false /\ existsb is_close events = true /\
    escaped = None)) /\
  (escaped <> None <-> token_missing env = true \/ payload_issue env = None) /\
  (escaped = None -> length (filter (fun e => is_comment e = true) events) = 1%nat).
Proof.
  cbn zeta. unfold processIssue, try_block.
  change (fst (initDatabase s)) with (connect s).
  assert (Hs : forall t : thrown, Some t <> None) by done.
  destruct (token_missing env);
    [cbn; split_and!; try done; [by left|split; [tauto|intros _; apply Hs]]|].
  destruct (payload_issue env) as [i|];
    [|cbn; split_and!; try done; [by left|split; [tauto|intros _; apply Hs]]].
  assert (Hn : (@None thrown <> None) <-> (false = true \/ Some i = None)).
  { split; [done|]. intros [H|H]; done. }
  destruct (parseIssueBody (body i)) as [p|e] eqn:Ep;
    [|cbn; split_and!; try done; by left].
  destruct (isValid (validateIssueData p _)) eqn:Ev; cbn [negb];
    [|cbn; split_and!; try done; by left].
  destruct (detectIssueType (title i) (labels i)) eqn:Ed.
  - rewrite create_branch_eq. cbn. split_and!; try done; by right.
  - rewrite update_branch_eq. rewrite !users_connect.
    destruct (recordId p) as [[|j]|] eqn:Er.
    1,3: cbn; rewrite connect_idem, users_connect, sequence_connect;
         split_and!; try done; by left.
    destruct (users s !! j) as [old|] eqn:Eo.
    2: cbn; rewrite connect_idem, users_connect, sequence_connect;
       split_and!; try done; by left.
    destruct (String.eqb_spec (github_username old) (user_login i)) as [Ho|Ho].
    + cbn. split_and!; try done; by right.
    + cbn. rewrite connect_idem, users_connect, sequence_connect.
      split_and!; try done; by left.
Qed.

(** X19. When [processIssue] closes the issue: exactly when there is a
    token and an issue whose body parses to a record that is valid for the
    kind detected from title and labels, and, for an UPDATE, whose recordId
    is the id of a record of the author. *)
Theorem processIssue_accepts_iff (env : environment) (now : timestamp) (s : store) :
  existsb is_close (snd (fst (processIssue env now s))) = true <->
  token_missing env = false /\
  exists i p,
    payload_issue env = Some i /\ parseIssueBody (body i) = Ok p /\
    isValid (validateIssueData p (detectIssueType (title i) (labels i))) = true /\
    (detectIssueType (title i) (labels i) = create \/
     exists j old, recordId p = Some (Num j) /\ users s !! j = Some old /\
                   github_username old = user_login i).
Proof.
  unfold processIssue, try_block.
  change (fst (initDatabase s)) with (connect s).
  destruct (token_missing env); [cbn -[validateIssueData isValid detectIssueType parseIssueBody]; split; [done|by intros [? _]]|].
  destruct (payload_issue env) as [i|];
    [|cbn -[validateIssueData isValid detectIssueType parseIssueBody]; split; [done|by intros (_ & ? & ? & ? & _)]].
  destruct (parseIssueBody (body i)) as [p|e] eqn:Ep.
  2:{ cbn -[validateIssueData isValid detectIssueType parseIssueBody]. split; [done|]. intros (_ & i' & p' & [= <-] & H & _). congruence. }
  destruct (isValid (validateIssueData p _)) eqn:Ev; cbn [negb].
  2:{ cbn -[validateIssueData isValid detectIssueType parseIssueBody]. split; [done|]. intros (_ & i' & p' & [= <-] & H & Hv & _).
      rewrite Ep in H. injection H as <-. congruence. }
  destruct (detectIssueType (title i) (labels i)) eqn:Ed.
  - rewrite create_branch_eq. cbn -[validateIssueData isValid detectIssueType parseIssueBody]. split; [|done]. intros _.
    split; [done|]. exists i, p. rewrite Ed. split_and!; try done. by left.
  - rewrite update_branch_eq. rewrite !users_connect.
    assert (Hr : forall P : Prop,
               (forall j old, recordId p = Some (Num j) -> users s !! j = Some old ->
                              github_username old = user_login i -> P) ->
               (false = false /\ exists i' p',
                   Some i = Some i' /\ parseIssueBody (body i') = Ok p' /\
                   isValid (validateIssueData p' (detectIssueType (title i') (labels i')))
                     = true /\
                   (detectIssueType (title i') (labels i') = create \/
                    exists j old, recordId p' = Some (Num j) /\
                                  users s !! j = Some old /\
                                  github_username old = user_login i')) -> P).
    { intros P HP (_ & i' & p' & [= <-] & H & _ & [Hc|(j & old & H1 & H2 & H3)]).
      - congruence.
      - rewrite Ep in H. injection H as <-. by apply (HP j old). }
    destruct (recordId p) as [[|j]|] eqn:Er.
    1,3: cbn -[validateIssueData isValid detectIssueType parseIssueBody]; split; [done|]; apply Hr; intros; congruence.
    destruct (users s !! j) as [old|] eqn:Eo.
    2:{ cbn -[validateIssueData isValid detectIssueType parseIssueBody]. split; [done|]. apply Hr. intros j' old' [= <-] H _. congruence. }
    destruct (String.eqb_spec (github_username old) (user_login i)) as [Ho|Ho].
    + cbn -[validateIssueData isValid detectIssueType parseIssueBody]. split; [|done]. intros _. split; [done|]. exists i, p.
      rewrite Ed. split_and!; try done. right. by exists j, old.
    + cbn -[validateIssueData isValid detectIssueType parseIssueBody]. split; [done|]. apply Hr. intros j' old' [= <-] H H'. congruence.
Qed.

End Processing.

Section SectionStrategy.

Lemma matches_groupless icase n r : forall s caps s' caps',
  groupless r = true -> matches icase n r s caps s' caps' -> caps' = caps.
Proof.
  induction r as [| | |c|p|g p|r1 IH|r1 IH|r1 IH1 r2 IH2]; intros s caps s' caps' Hg; cbn.
  - by intros [_ ->].
  - by intros (_ & -> & _).
  - by intros (_ & _ & ->).
  - by intros (x & _ & _ & ->).
  - by intros (x & _ & _ & ->).
  - by intros (w & _ & _ & ->).
  - intros [[_ ->]|H]; [done|]. by apply (IH _ _ _ _ Hg H).
  - done.
  - cbn in Hg. apply andb_true_iff in Hg as [Hg1 Hg2].
    intros (s1 & c1 & H1 & H2).
    apply (IH1 _ _ _ _ Hg1) in H1 as ->. by apply (IH2 _ _ _ _ Hg2) in H2.
Qed.

Lemma groupless_Str p : groupless (Str p) = true.
Proof.
  induction p as [|c p IH]; [done|]. destruct p; [done|].
  change (groupless (Str (String c (String a p))))
    with (groupless (Str (String a p))). exact IH.
Qed.

Lemma all_dropWhile_sub p q s : all p s = true -> all p (dropWhile q s) = true.
Proof.
  induction s as [|c s IH]; cbn; [done|]. intros H.
  destruct (q c); [|done]. apply andb_true_iff in H as [_ H]. by apply IH.
Qed.

Lemma all_trimEnd p s : all p s = true -> all p (trimEnd s) = true.
Proof.
  induction s as [|c s IH]; cbn; [done|]. intros H.
  apply andb_true_iff in H as [Hc Hs]. specialize (IH Hs).
  destruct (trimEnd s) as [|d t].
  - destruct (is_space c); cbn; [done|]. by rewrite Hc.
  - cbn in *. by rewrite Hc.
Qed.

Lemma all_trim p s : all p s = true -> all p (trim s) = true.
Proof. intros H. unfold trim, trimStart. by apply all_trimEnd, all_dropWhile_sub. Qed.

(** A match of a heading pattern captures one non-empty run of characters
    of one line. *)
Lemma heading_match title body caps :
  groupless title = true ->
  re_match (heading_re title) body = Some caps ->
  exists v, caps = [v] /\ v <> "" /\ all not_newline v = true.
Proof.
  intros Hg. unfold re_match. intros H.
  apply search_sound in H as (pre & t & s' & -> & Hm).
  cbn [matches Seq heading_re source ignoreCase Plus] in Hm.
  destruct Hm as (s1 & c1 & H1 & s2 & c2 & (w2 & -> & _ & ->) & s3 & c3 & H3
                  & s4 & c4 & (w4 & -> & _ & ->) & s5 & c5 & (x5 & -> & _ & ->)
                  & c6 & (s6 & c7 & (x & -> & Hx & ->) & (w & -> & Hw & ->)) & ->).
  apply matches_groupless in H1 as ->; [|apply groupless_Str].
  apply matches_groupless in H3 as ->; [|done].
  exists (String x w). split.
  - change (String x (w +:+ s')) with (String x w +:+ s'). by rewrite consumed_app.
  - split; [done|]. cbn. by rewrite Hx, Hw.
Qed.

Lemma foldl_markdown_entry (P : string -> string -> Prop) body entries :
  forall data : RawFieldMap,
  (forall k v, data !! k = Some v -> P k v) ->
  (forall e v caps, In e entries -> re_match (snd e) body = Some (v :: caps) ->
                    P (fst e) (trim v)) ->
  forall k v, foldl (markdown_entry body) data entries !! k = Some v -> P k v.
Proof.
  induction entries as [|e entries IH]; intros data Hd He k v; cbn; [apply Hd|].
  apply IH.
  - intros k' v'. unfold markdown_entry.
    destruct (re_match (snd e) body) as [[|c caps]|] eqn:E; try apply Hd.
    rewrite lookup_insert. case_decide as Hk.
    + intros [= <-]. subst k'. apply (He e c caps); [by left|done].
    + apply Hd.
  - intros e' v' caps Hin. apply He. by right.
Qed.

(** X20. What the section strategy extracts: only the keys name, state,
    options, recordId, record_id and id, each with a value of one line; and
    the keys recordId and record_id, which read the same heading, hold the
    same value or are both absent. *)
Theorem section_fields (body : string) :
  (forall k v, extractMarkdownFormat body !! k = Some v ->
     In k section_keys /\ all not_newline v = true) /\
  extractMarkdownFormat body !! "recordId" = extractMarkdownFormat body !! "record_id".
Proof.
  split.
  - unfold extractMarkdownFormat.
    apply (foldl_markdown_entry
             (fun k v => In k section_keys /\ all not_newline v = true)).
    + intros k v H. by rewrite lookup_empty in H.
    + intros e v caps Hin Hm.
      assert (Hg : exists t, snd e = heading_re t /\ groupless t = true /\
                             In (fst e) section_keys).
      { cbn in Hin.
        destruct Hin as [<-|[<-|[<-|[<-|[<-|[<-|[]]]]]]]; cbn;
          eexists; (split; [reflexivity|]); (split; [reflexivity|]); tauto. }
      destruct Hg as (t & Ht & Hg & Hk). rewrite Ht in Hm.
      apply heading_match in Hm as (v' & [= -> ->] & _ & Hv); [|done].
      split; [done|]. by apply all_trim.
  - unfold extractMarkdownFormat, patterns. cbn [foldl]. unfold markdown_entry.
    cbn [fst snd].
    destruct (re_match (heading_re (Str "Name")) body) as [[|v1 ?]|];
      destruct (re_match (heading_re (Str "State")) body) as [[|v2 ?]|];
      destruct (re_match (heading_re (Seq [Str "Option"; Opt (Chr "s")])) body)
        as [[|v3 ?]|];
      destruct (re_match (heading_re record_id_title) body) as [[|v4 ?]|];
      destruct (re_match (heading_re (Str "ID")) body) as [[|v5 ?]|];
      by simplify_map_eq.
Qed.

End SectionStrategy.

Section FrontmatterBlock.

(** A lazy repetition stops at the first position from which the rest of
    the pattern succeeds. *)
Lemma star_lazy_min p s k res :
  star_lazy p s k = Some res ->
  exists w s', s = w +:+ s' /\ all p w = true /\ k s' = Some res /\
    forall w0 s0, s = w0 +:+ s0 -> (String.length w0 < String.length w)%nat ->
                  k s0 = None.
Proof.
  induction s as [|c s IH].
  - cbn. destruct (k "") eqn:E; [|done]. intros [= ->].
    exists "", "". split_and!; try done. intros w0 s0 _ H. cbn in H. lia.
  - cbn. destruct (k (String c s)) eqn:E.
    + intros [= ->]. exists "", (String c s). split_and!; try done.
      intros w0 s0 _ H. cbn in H. lia.
    + destruct (p c) eqn:Hp; [|done]. intros H.
      destruct (IH H) as (w & s' & -> & Hw & Hk & Hmin).
      exists (String c w), s'. split_and!; try done.
      * cbn. by rewrite Hp, Hw.
      * intros [|d w0] s0 Heq Hlen.
        -- rewrite app_nil_l in Heq. by subst s0.
        -- rewrite !app_cons in Heq. injection Heq as -> Heq.
           apply (Hmin w0 s0 Heq). cbn in Hlen. lia.
Qed.

(** A greedy repetition followed by a pattern that needs the character
    [c]: the last [c] of the run is where the pattern goes on. *)
Lemma star_greedy_backtrack p w c s1 k :
  all p w = true -> p c = true ->
  star_greedy p s1 k = None -> is_Some (k (String c s1)) ->
  star_greedy p (w +:+ String c s1) k = k (String c s1).
Proof.
  intros Hw Hc Hn [r Hr]. induction w as [|d w IH].
  - rewrite app_nil_l. cbn. by rewrite Hc, Hn.
  - cbn in Hw. apply andb_true_iff in Hw as [Hd Hw]. rewrite app_cons. cbn.
    rewrite Hd, (IH Hw), Hr. done.
Qed.

Lemma exec_Str_app n p s caps k : exec false n (Str p) (p +:+ s) caps k = k s caps.
Proof.
  revert caps k. induction p as [|c p IH]; intros caps k; [done|].
  destruct p as [|d p].
  - rewrite app_cons, app_nil_l. cbn [Str exec chr_eq]. by rewrite Ascii.eqb_refl.
  - cbn [Str exec]. rewrite app_cons. cbn [chr_eq]. rewrite Ascii.eqb_refl.
    apply (IH caps k).
Qed.

Lemma app_inj_length (a b c d : string) :
  a +:+ b = c +:+ d -> String.length a = String.length c -> a = c /\ b = d.
Proof.
  revert c. induction a as [|x a IH]; intros [|y c]; cbn; try done.
  rewrite !app_cons. intros [= -> H] [= Hl]. by destruct (IH _ H Hl) as [-> ->].
Qed.

(** Where the delimiter line can sit in a text whose block has no line that
    begins with [---]. *)
Lemma delimiter_position block w X Y :
  includes block (nl +:+ "---") = false ->
  block +:+ nl +:+ "---" +:+ Y = w +:+ nl +:+ "---" +:+ X ->
  (String.length block <= String.length w)%nat.
Proof.
  revert block. induction w as [|a w IH]; intros block Hb Heq.
  - destruct block as [|c [|d [|e [|f b]]]]; [cbn; lia|..]; try discriminate Heq.
    injection Heq as -> -> -> -> _.
    assert (includes (String LF (String "-" (String "-" (String "-" b))))
              (nl +:+ "---") = true); [|congruence].
    apply includes_iff. by exists "", b.
  - destruct block as [|c b]; [cbn; lia|].
    rewrite !app_cons in Heq. injection Heq as -> Heq.
    cbn [includes] in Hb. apply orb_false_iff in Hb as [_ Hb].
    specialize (IH b Hb Heq). cbn. lia.
Qed.

Lemma search_first icase n r s caps :
  exec icase n r s [] (fun _ c => Some c) = Some caps ->
  search icase n r s = Some caps.
Proof. intros H. destruct s; cbn [search]; by rewrite H. Qed.

(** The part of the frontmatter pattern after the first group. *)
Lemma frontmatter_tail_sound n s caps res :
  exec false n
    (Seq [Chr LF; Str "---"; Star Greedy is_space; Chr LF;
          Grp (Star Greedy any_char); Eol]) s caps (fun _ c => Some c) = Some res ->
  exists ws2 rest, s = nl +:+ "---" +:+ ws2 +:+ nl +:+ rest /\
                   res = (caps ++ [rest])%list.
Proof.
  intros H. apply exec_sound in H as (s' & caps' & Hm & [= <-]).
  cbn [matches Seq] in Hm.
  destruct Hm as (s1 & c1 & (x1 & -> & Hx1 & ->) & s2 & c2 & H2
                  & s3 & c3 & (ws2 & -> & _ & ->) & s4 & c4 & (x4 & -> & Hx4 & ->)
                  & s5 & c5 & (c6 & (rest & -> & _ & ->) & ->) & (-> & _ & ->)).
  apply matches_Str_inv in H2 as [-> ->].
  apply Ascii.eqb_eq in Hx1 as <-. apply Ascii.eqb_eq in Hx4 as <-.
  exists ws2, rest. rewrite app_nil_r. split; [done|].
  assert (consumed rest "" = rest) as ->; [|done].
  rewrite <- (app_nil_r rest) at 1. apply consumed_app.
Qed.

Lemma frontmatter_tail_complete n ws2 rest caps :
  all is_space ws2 = true ->
  is_Some (exec false n
             (Seq [Chr LF; Str "---"; Star Greedy is_space; Chr LF;
                   Grp (Star Greedy any_char); Eol])
             (nl +:+ "---" +:+ ws2 +:+ nl +:+ rest) caps (fun _ c => Some c)).
Proof.
  intros Hws.
  eapply (exec_complete false n _ _ caps "" (caps ++ [rest])%list); [|done].
  cbn [matches Seq chr_eq].
  eexists _, caps. split; [by exists LF|].
  eexists _, caps. split; [apply matches_Str|].
  eexists _, caps. split; [by exists ws2|].
  eexists _, caps. split; [by exists LF|].
  eexists _, (caps ++ [rest])%list. split; [|done].
  exists caps. split.
  - exists rest. rewrite app_nil_r. split; [done|]. split; [apply all_any_char|done].
  - assert (consumed rest "" = rest) as ->; [|done].
    rewrite <- (app_nil_r rest) at 1. apply consumed_app.
Qed.

(** X21. A frontmatter text read as a whole: between a first delimiter
    line and the first later delimiter line, a block that begins with a
    character other than white space and has no line beginning with [---]
    is read line by line, whatever follows the second delimiter line. *)
Theorem frontmatter_block_read (ws1 block ws2 rest : string) :
  all is_space ws1 = true -> all is_space ws2 = true ->
  (exists c b, block = String c b /\ is_space c = false) ->
  includes block (nl +:+ "---") = false ->
  extractYAMLFrontmatter
    ("---" +:+ ws1 +:+ nl +:+ block +:+ nl +:+ "---" +:+ ws2 +:+ nl +:+ rest)
  = Ok (foldl yaml_line ∅ (split_lines block)).
Proof.
  intros Hws1 Hws2 (c & b & Hblock & Hc) Hno.
  set (s0 := nl +:+ "---" +:+ ws2 +:+ nl +:+ rest).
  set (T := block +:+ s0).
  set (body := "---" +:+ ws1 +:+ nl +:+ T).
  set (tail := Seq [Chr LF; Str "---"; Star Greedy is_space; Chr LF;
                    Grp (Star Greedy any_char); Eol]).
  set (K := fun s' : string =>
              exec false (String.length body) tail s' [consumed T s']
                (fun _ c => Some c)).
  assert (HT : T = String c (b +:+ s0)) by (unfold T; by rewrite Hblock).
  assert (Hlf : Ascii.eqb LF c = false).
  { destruct (Ascii.eqb_spec LF c) as [<-|]; [discriminate Hc|done]. }
  assert (Hlazy : is_Some (star_lazy any_char T K)).
  { apply star_lazy_complete; [apply all_any_char|].
    by apply frontmatter_tail_complete. }
  assert (Hexec : exec false (String.length body) (source frontmatter_re) body []
                    (fun _ c => Some c) = star_lazy any_char T K).
  { cbn [source frontmatter_re Seq exec]. rewrite Nat.eqb_refl.
    unfold body. rewrite exec_Str_app.
    change (nl +:+ T) with (String LF T).
    rewrite star_greedy_backtrack; try done.
    rewrite HT. cbn [star_greedy]. rewrite Hc. cbn [chr_eq]. by rewrite Hlf. }
  destruct Hlazy as [res Hres].
  assert (Hmatch : re_match frontmatter_re body = Some res).
  { unfold re_match. apply search_first. exact (eq_trans Hexec Hres). }
  unfold extractYAMLFrontmatter. fold s0 T body. rewrite Hmatch.
  apply star_lazy_min in Hres as (w & s' & HTw & _ & HK & Hmin).
  apply frontmatter_tail_sound in HK as (ws2' & rest' & -> & ->).
  assert (Hw : w = block).
  { assert (Hle : (String.length block <= String.length w)%nat).
    { apply (delimiter_position block w (ws2' +:+ nl +:+ rest') (ws2 +:+ nl +:+ rest));
        [done|]. by rewrite <- HTw. }
    assert (Hge : ~ (String.length block < String.length w)%nat).
    { intros Hlt. specialize (Hmin block s0 eq_refl Hlt).
      destruct (frontmatter_tail_complete (String.length body) ws2 rest
                  [consumed T s0] Hws2) as [r Hr].
      unfold K in Hmin. fold tail s0 in Hr. congruence. }
    symmetry.
    apply (app_inj_length block s0 w (nl +:+ "---" +:+ ws2' +:+ nl +:+ rest'));
      [exact HTw|lia]. }
  cbn [app]. rewrite HTw at 1. by rewrite consumed_app, Hw.
Qed.

Lemma frontmatter_block_read_witness :
  extractYAMLFrontmatter
    (text ["--- "; ""; "name: Bob"; "state: 'TX'"; "---"; "notes"; "---"; "more"])
  = Ok {[ "name" := "Bob"; "state" := "TX" ]}.
Proof.
  assert (H := frontmatter_block_read (text [" "; ""])
                 (text ["name: Bob"; "state: 'TX'"]) ""
                 (text ["notes"; "---"; "more"]) eq_refl eq_refl
                 ltac:(by eexists _, _) eq_refl).
  vm_compute in H. vm_compute. exact H.
Defined.

End FrontmatterBlock.

Section SectionDocument.

(** Against a pattern character that is no letter, the comparison up to
    case is the plain one. *)
Lemma chr_eq_plain c x :
  between 65 90 c = false -> between 97 122 c = false ->
  chr_eq true c x = Ascii.eqb c x.
Proof.
  intros Hu Hl. unfold chr_eq, canonicalize. rewrite Hl.
  destruct (between 97 122 x) eqn:Hx; [|done].
  destruct (Ascii.eqb_spec c x) as [->|Hne]; [congruence|].
  apply Ascii.eqb_neq. intros ->.
  unfold between, code in *.
  apply andb_true_iff in Hx as [H1 H2]. apply N.leb_le in H1. apply N.leb_le in H2.
  rewrite N_ascii_embedding in Hu by lia.
  apply andb_false_iff in Hu as [Hu|Hu]; apply N.leb_gt in Hu; lia.
Qed.

Lemma chr_eq_refl i c : chr_eq i c c = true.
Proof. unfold chr_eq. destruct i; apply Ascii.eqb_refl. Qed.

Lemma exec_Str_same i n p s caps k : exec i n (Str p) (p +:+ s) caps k = k s caps.
Proof.
  revert caps k. induction p as [|c p IH]; intros caps k; [done|].
  destruct p as [|d p].
  - rewrite app_cons, app_nil_l. cbn [Str exec]. by rewrite chr_eq_refl.
  - cbn [Str exec]. rewrite app_cons. rewrite chr_eq_refl. apply (IH caps k).
Qed.

(** A greedy repetition takes the whole run when the rest of the pattern
    succeeds after it. *)
Lemma star_greedy_all p w s k :
  all p w = true -> is_Some (k s) ->
  (s = "" \/ exists c s', s = String c s' /\ p c = false) ->
  star_greedy p (w +:+ s) k = k s.
Proof.
  intros Hw [r Hr] Hs. induction w as [|d w IH].
  - rewrite app_nil_l. destruct Hs as [->|(c & s' & -> & Hc)]; [done|].
    cbn. by rewrite Hc.
  - cbn in Hw. apply andb_true_iff in Hw as [Hd Hw]. rewrite app_cons. cbn.
    by rewrite Hd, (IH Hw), Hr.
Qed.

Lemma all_app p a b : all p (a +:+ b) = all p a && all p b.
Proof.
  induction a as [|c a IH]; [done|]. rewrite app_cons. cbn. by rewrite IH, andb_assoc.
Qed.

(** Where the text does not begin with [###], a heading pattern fails. *)
Lemma heading_fails_without_hashes n title s :
  startsWith s "###" = false ->
  exec true n (source (heading_re title)) s [] (fun _ c => Some c) = None.
Proof.
  intros H. cbn [source heading_re Seq exec Str].
  assert (Hh : forall x, chr_eq true "#" x = Ascii.eqb "#" x)
    by (intros x; by apply chr_eq_plain).
  destruct s as [|x1 [|x2 [|x3 s]]]; cbn [exec]; rewrite ?Hh; cbn [startsWith] in H.
  - done.
  - by destruct (Ascii.eqb "#" x1).
  - destruct (Ascii.eqb "#" x1); [|done]. by destruct (Ascii.eqb "#" x2).
  - destruct (Ascii.eqb "#" x1); [|done]. destruct (Ascii.eqb "#" x2); [|done].
    destruct (Ascii.eqb "#" x3); [|done]. destruct s; discriminate H.
Qed.

Lemma search_step n title x s :
  startsWith (String x s) "###" = false ->
  search true n (source (heading_re title)) (String x s)
    = search true n (source (heading_re title)) s.
Proof.
  intros H. cbn [search]. by rewrite (heading_fails_without_hashes n title _ H).
Qed.

(** A stretch of text without [#] holds no match of a heading pattern. *)
Lemma search_skip n title pre s :
  all (fun c => negb (Ascii.eqb c "#")) pre = true ->
  search true n (source (heading_re title)) (pre +:+ s)
    = search true n (source (heading_re title)) s.
Proof.
  induction pre as [|x pre IH]; [done|]. intros H. cbn [all] in H.
  apply andb_true_iff in H as [Hx Hpre]. rewrite app_cons, search_step; [by apply IH|].
  cbn [startsWith]. apply negb_true_iff in Hx. rewrite Ascii.eqb_sym in Hx.
  by rewrite Hx.
Qed.

Lemma search_empty n title :
  search true n (source (heading_re title)) "" = None.
Proof. done. Qed.

(** After the title: white space up to a line break, then the line of the
    value, which the group takes whole. *)
Lemma exec_value_line n ws v tail caps :
  all is_space ws = true ->
  all not_newline v = true ->
  (exists c v', v = String c v' /\ is_space c = false) ->
  (tail = "" \/ exists t, tail = String LF t) ->
  exec true n (Seq [Star Greedy is_space; Chr LF; Grp (Plus not_newline)])
    (ws +:+ nl +:+ v +:+ tail) caps (fun _ c => Some c)
  = Some (caps ++ [v])%list.
Proof.
  intros Hws Hv (c & v' & -> & Hc) Htail.
  assert (Hlf : forall x, chr_eq true LF x = Ascii.eqb LF x)
    by (intros x; by apply chr_eq_plain).
  assert (Hcl : Ascii.eqb LF c = false).
  { destruct (Ascii.eqb_spec LF c) as [<-|]; [discriminate Hc|done]. }
  cbn in Hv. apply andb_true_iff in Hv as [Hcn Hv'].
  cbn [Seq exec Plus].
  change (nl +:+ String c v' +:+ tail) with (String LF (String c (v' +:+ tail))).
  assert (Hk : exec true n (Cat (Chr LF) (Grp (Cat (Cls not_newline)
                                                (Star Greedy not_newline))))
                 (String LF (String c (v' +:+ tail))) caps (fun _ c0 => Some c0)
               = Some (caps ++ [String c v'])%list).
  { cbn [exec]. rewrite Hlf, Ascii.eqb_refl, Hcn.
    rewrite star_greedy_all.
    - change (String c (v' +:+ tail)) with (String c v' +:+ tail).
      by rewrite consumed_app.
    - done.
    - by eexists.
    - destruct Htail as [->|(t & ->)]; [by left|right]. by exists LF, t. }
  rewrite star_greedy_backtrack; try done.
  cbn [star_greedy]. rewrite Hc. by rewrite Hlf, Hcl.
Qed.

Lemma star_one_space (K : string -> option captures) x Y :
  is_space x = false ->
  star_greedy is_space (String " " (String x Y)) K =
    match K (String x Y) with
    | Some r => Some r
    | None => K (String " " (String x Y))
    end.
Proof. intros Hx. cbn [star_greedy]. rewrite Hx. done. Qed.

(** A heading pattern at a heading line [### T...]: the title is tried
    after the blank, then at the blank. *)
Lemma exec_heading n title t0 Y :
  is_space t0 = false ->
  exec true n (source (heading_re title)) ("### " +:+ String t0 Y) []
    (fun _ c => Some c) =
    match exec true n (Cat title value_re) (String t0 Y) [] (fun _ c => Some c) with
    | Some r => Some r
    | None => exec true n (Cat title value_re) (String " " (String t0 Y)) []
                (fun _ c => Some c)
    end.
Proof.
  intros Ht. cbn [source heading_re Seq].
  change ("### " +:+ String t0 Y) with ("###" +:+ String " " (String t0 Y)).
  change (exec true n (Cat (Str "###") ?r) ?s ?c ?k)
    with (exec true n (Str "###") s c (fun s' c' => exec true n r s' c' k)).
  rewrite exec_Str_same. cbn [exec]. by rewrite star_one_space.
Qed.

Lemma value_re_fails n x Y caps :
  is_space x = false ->
  exec true n value_re (String x Y) caps (fun _ c => Some c) = None.
Proof.
  intros Hx. cbn [value_re Seq exec star_greedy]. rewrite Hx.
  rewrite chr_eq_plain by done.
  destruct (Ascii.eqb_spec LF x) as [<-|]; [discriminate Hx|done].
Qed.

(** The title pattern on the title it reads. *)
Lemma title_hit n p h Y :
  reads p h = true ->
  exec true n (Cat (pattern_title p) value_re) (title_text h +:+ Y) []
    (fun _ c => Some c)
  = exec true n value_re Y [] (fun _ c => Some c).
Proof.
  destruct p, h; try done; intros _; cbn [pattern_title title_text].
  - change ("Options" +:+ Y) with ("Option" +:+ String "s" Y).
    change (exec true n (Cat (Seq [Str "Option"; Opt (Chr "s")]) ?r) ?s ?c ?k)
      with (exec true n (Str "Option") s c
              (fun s' c' => exec true n (Opt (Chr "s")) s' c'
                              (fun s'' c'' => exec true n r s'' c'' k))).
    rewrite exec_Str_same. cbn [exec]. rewrite chr_eq_refl.
    destruct (exec true n value_re Y [] _) eqn:E; [done|].
    by apply value_re_fails.
  - change ("Record ID" +:+ Y) with ("Record" +:+ String " " (String "I" ("D" +:+ Y))).
    change (exec true n (Cat record_id_title ?r) ?s ?c ?k)
      with (exec true n (Str "Record") s c
              (fun s' c' => star_greedy is_space s'
                  (fun s'' => exec true n (Str "ID") s'' c'
                                (fun s3 c3 => exec true n r s3 c3 k)))).
    rewrite exec_Str_same. rewrite star_one_space by done.
    change (String "I" ("D" +:+ Y)) with ("ID" +:+ Y).
    rewrite exec_Str_same.
    by destruct (exec true n value_re Y [] _) eqn:E.
Qed.

(** The title pattern on another title, and on the blank before a title. *)
Lemma title_miss n p h Y :
  reads p h = false ->
  exec true n (Cat (pattern_title p) value_re) (title_text h +:+ Y) []
    (fun _ c => Some c) = None /\
  exec true n (Cat (pattern_title p) value_re) (String " " (title_text h +:+ Y)) []
    (fun _ c => Some c) = None.
Proof.
  destruct p, h; try done; intros _; split; reflexivity.
Qed.

Lemma title_blank n p h Y :
  exec true n (Cat (pattern_title p) value_re) (String " " (title_text h +:+ Y)) []
    (fun _ c => Some c) = None.
Proof. destruct p; reflexivity. Qed.

Lemma title_first h Y :
  exists t0 T, title_text h +:+ Y = String t0 (T +:+ Y) /\ is_space t0 = false /\
               all (fun c => negb (Ascii.eqb c "#")) T = true /\
               Ascii.eqb t0 "#" = false.
Proof. destruct h; eexists _, _; (split; [reflexivity|]); done. Qed.

Lemma space_no_hash s :
  all is_space s = true -> all (fun c => negb (Ascii.eqb c "#")) s = true.
Proof.
  apply all_impl. intros c Hc.
  destruct (Ascii.eqb_spec c "#") as [->|]; [discriminate Hc|done].
Qed.

Lemma value_no_hash s :
  all value_char s = true -> all (fun c => negb (Ascii.eqb c "#")) s = true.
Proof.
  apply all_impl. intros c Hc. unfold value_char in Hc.
  by apply andb_true_iff in Hc as [_ ->].
Qed.

Lemma value_one_line s : all value_char s = true -> all not_newline s = true.
Proof.
  apply all_impl. intros c Hc. unfold value_char in Hc.
  by apply andb_true_iff in Hc as [-> _].
Qed.

(** A heading pattern over one section and what follows it. *)
Lemma search_section n p s (tail : string) :
  section_ok s ->
  search true n (source (heading_re (pattern_title p)))
    ("### " +:+ title_text (sec_heading s) +:+ sec_gap s +:+ nl +:+ sec_value s +:+
     match tail with "" => "" | _ => nl +:+ sec_sep s +:+ tail end)
  = if reads p (sec_heading s) then Some [sec_value s]
    else search true n (source (heading_re (pattern_title p))) tail.
Proof.
  intros (Hgap & Hsep & Hval & Hfirst).
  set (TAIL := match tail with "" => "" | _ => nl +:+ sec_sep s +:+ tail end).
  set (Y := sec_gap s +:+ nl +:+ sec_value s +:+ TAIL).
  destruct (title_first (sec_heading s) Y) as (t0 & T & HT & Ht0 & HTn & Ht0h).
  rewrite HT.
  assert (Hexec : exec true n (source (heading_re (pattern_title p)))
                    ("### " +:+ String t0 (T +:+ Y)) [] (fun _ c => Some c)
                  = if reads p (sec_heading s) then Some [sec_value s] else None).
  { rewrite exec_heading by done. rewrite <- HT.
    destruct (reads p (sec_heading s)) eqn:Er.
    - rewrite title_hit by done. unfold Y.
      rewrite exec_value_line; try done.
      + by apply value_one_line.
      + unfold TAIL. destruct tail; [by left|right]. by eexists.
    - destruct (title_miss n p (sec_heading s) Y Er) as [-> ->]. done. }
  destruct (reads p (sec_heading s)); [by apply search_first|].
  change ("### " +:+ String t0 (T +:+ Y))
    with (String "#" (String "#" (String "#" (String " " (String t0 (T +:+ Y)))))).
  change ("### " +:+ String t0 (T +:+ Y))
    with (String "#" (String "#" (String "#" (String " " (String t0 (T +:+ Y))))))
    in Hexec.
  cbn [search]. rewrite Hexec.
  rewrite !heading_fails_without_hashes
    by (first [done | cbn [startsWith]; by rewrite Ascii.eqb_sym, Ht0h]).
  unfold Y, TAIL. destruct tail as [|c tail].
  - rewrite !app_nil_r.
    rewrite <- (app_nil_r (T +:+ sec_gap s +:+ nl +:+ sec_value s)).
    rewrite !(app_assoc T), !(app_assoc (sec_gap s)).
    rewrite <- !app_assoc. rewrite search_skip; [done|].
    rewrite !all_app, HTn, (space_no_hash _ Hgap), (value_no_hash _ Hval). done.
  - replace (T +:+ sec_gap s +:+ nl +:+ sec_value s +:+ nl +:+ sec_sep s +:+ String c tail)
      with ((T +:+ sec_gap s +:+ nl +:+ sec_value s +:+ nl +:+ sec_sep s) +:+ String c tail)
      by (by rewrite !app_assoc).
    rewrite search_skip; [done|].
    rewrite !all_app, HTn, (space_no_hash _ Hgap), (value_no_hash _ Hval),
      (space_no_hash _ Hsep). done.
Qed.

Lemma render_cons s rest :
  render (s :: rest) =
    "### " +:+ title_text (sec_heading s) +:+ sec_gap s +:+ nl +:+ sec_value s +:+
    match render rest with "" => "" | _ => nl +:+ sec_sep s +:+ render rest end.
Proof. destruct rest as [|s' rest]; [done|]. cbn [render]. done. Qed.

(** A heading pattern over a whole body: the line of the first section
    that it reads. *)
Lemma search_render n p secs :
  Forall section_ok secs ->
  search true n (source (heading_re (pattern_title p))) (render secs)
  = (fun v => [v]) <$> first_line p secs.
Proof.
  induction 1 as [|s rest Hs _ IH]; [done|].
  rewrite render_cons, search_section by done. cbn [first_line].
  by destruct (reads p (sec_heading s)).
Qed.

Lemma first_value_line h secs :
  first_value h secs =
    trim <$> first_line (match h with HName => PName | HState => PState
                                 | HOptions => POptions | HRecordId => PRecordId end)
               secs.
Proof.
  induction secs as [|s rest IH]; [done|]. cbn. rewrite IH.
  by destruct h, (sec_heading s).
Qed.

Lemma first_line_id secs : first_line PId secs = None.
Proof. induction secs as [|s rest IH]; [done|]. cbn. by destruct (sec_heading s). Qed.

(** X22. A body in the section format, read as a whole: for sections with
    the headings Name, State, Options and Record ID in any order, each
    with its value on the line after the heading line, the section strategy
    gives every key the trimmed value of the first section with its
    heading; recordId and record_id both read Record ID, and id is left
    out. *)
Theorem section_document_read (secs : list section) :
  Forall section_ok secs ->
  extractMarkdownFormat (render secs) !! "name" = first_value HName secs /\
  extractMarkdownFormat (render secs) !! "state" = first_value HState secs /\
  extractMarkdownFormat (render secs) !! "options" = first_value HOptions secs /\
  extractMarkdownFormat (render secs) !! "recordId" = first_value HRecordId secs /\
  extractMarkdownFormat (render secs) !! "record_id" = first_value HRecordId secs /\
  extractMarkdownFormat (render secs) !! "id" = None.
Proof.
  intros Hok. rewrite !first_value_line.
  unfold extractMarkdownFormat, patterns. cbn [foldl]. unfold markdown_entry, re_match.
  cbn [fst snd].
  repeat match goal with
         | |- context [ignoreCase (heading_re ?t)] =>
             change (ignoreCase (heading_re t)) with true
         end.
  pose proof (search_render (String.length (render secs)) PName secs Hok) as H1.
  pose proof (search_render (String.length (render secs)) PState secs Hok) as H2.
  pose proof (search_render (String.length (render secs)) POptions secs Hok) as H3.
  pose proof (search_render (String.length (render secs)) PRecordId secs Hok) as H4.
  pose proof (search_render (String.length (render secs)) PId secs Hok) as H5.
  cbn [pattern_title] in H1, H2, H3, H4, H5.
  rewrite H1, H2, H3, H4, H5, first_line_id.
  destruct (first_line PName secs), (first_line PState secs),
    (first_line POptions secs), (first_line PRecordId secs); cbn;
    by simplify_map_eq.
Qed.

Lemma section_document_read_witness :
  extractMarkdownFormat
    (text ["### Record ID"; ""; "42"; ""; "### Name  "; "Bob Ray "; "### State"; "TX"])
    !! "recordId" = Some "42".
Proof.
  apply (section_document_read
           [ {| sec_heading := HRecordId; sec_gap := nl; sec_value := "42";
                sec_sep := nl |};
             {| sec_heading := HName; sec_gap := "  "; sec_value := "Bob Ray ";
                sec_sep := "" |};
             {| sec_heading := HState; sec_gap := ""; sec_value := "TX";
                sec_sep := "" |} ]).
  repeat constructor; try reflexivity; by eexists _, _.
Defined.

End SectionDocument.

Section FrontmatterText.










End FrontmatterText.
